(** * hgzy: the ranker and the Big/Small decision aggregator of [scraper.py]

    A shallow embedding of [_score] and [analyze_big_small] (with its inner
    [vote]) and of the data part of their caller [scrape_plans], with the
    properties the specification states about them and further properties
    read off the code.

    The numbers are read twice.
    - First as real numbers, with exact arithmetic.  This reading carries the
      properties that do not depend on how a double rounds or overflows: the
      classification of plan texts, the length of the ranking, the formula of
      the score, the "no signal" result.
    - Then as IEEE doubles (module [IEEE]): finite values, infinities and
      NaN, rounding after every operation, and the exceptions Python raises.
      This reading carries the properties of order, sign and confidence,
      which infinities and NaN can break.

    Other conventions.
    - A Python [str] is a [string] of 8-bit characters (text outside ASCII
      as its UTF-8 bytes); [str.lower] moves [A]..[Z] to [a]..[z] and leaves
      every other byte, [str.strip] removes the ASCII white space.
    - A dict read with [.get] is a record whose fields are [option]s
      ([None] for a missing key or a stored [None]). *)

From Stdlib Require Import Reals Lra Lia List Bool Ascii String Permutation Sorted.
Import ListNotations.

Open Scope string_scope.

(** ** Strings *)

Module Str.

  (** [c.lower()] on one character: [A]..[Z] move to [a]..[z]. *)
Definition lower_ascii (c : ascii) : ascii :=
    let n := nat_of_ascii c in
    if (65 <=? n)%nat && (n <=? 90)%nat then ascii_of_nat (n + 32) else c.

  (** [s.lower()]. *)
Fixpoint lower (s : string) : string :=
    match s with
    | EmptyString => EmptyString
    | String c s' => String (lower_ascii c) (lower s')
    end.

  (** [needle in s] for two strings: [needle] occurs as a substring. *)
Fixpoint contains (needle s : string) : bool :=
    if String.prefix needle s then true
    else match s with
         | EmptyString => false
         | String _ s' => contains needle s'
         end.

  (** [list(s)]: the one-character strings of [s]. *)
Fixpoint chars (s : string) : list string :=
    match s with
    | EmptyString => []
    | String c s' => String c EmptyString :: chars s'
    end.

  (** [any(ch in t for ch in list(cs))]. *)
Definition any_char_in (cs t : string) : bool :=
    existsb (fun ch => contains ch t) (chars cs).

  (** The characters [str.strip] removes, in the 8-bit range. *)
Definition is_space (c : ascii) : bool :=
    let n := nat_of_ascii c in
    ((9 <=? n)%nat && (n <=? 13)%nat) || ((28 <=? n)%nat && (n <=? 32)%nat).

Fixpoint lstrip (s : string) : string :=
    match s with
    | EmptyString => EmptyString
    | String c s' => if is_space c then lstrip s' else s
    end.

Fixpoint rstrip (s : string) : string :=
    match s with
    | EmptyString => EmptyString
    | String c s' =>
        match rstrip s' with
        | EmptyString => if is_space c then EmptyString else String c EmptyString
        | r => String c r
        end
    end.

  (** [s.strip()]. *)
Definition strip (s : string) : string := rstrip (lstrip s).

  (** [s or ""] for an optional string. *)
Definition or_empty (s : option string) : string :=
    match s with
    | Some x => x
    | None => ""
    end.

End Str.

(** ** The classification ladder: [vote] inside [analyze_big_small] *)

Inductive Side : Type := Big | Small.

Definition Side_eqb (a b : Side) : bool :=
  match a, b with
  | Big, Big | Small, Small => true
  | _, _ => false
  end.

(** The last two rungs of the ladder (the "common synonyms"), on the
    lower-cased text. *)
Definition vote_synonyms (t : string) : option Side :=
  if Str.contains "high" t || Str.contains "up" t then Some Big
  else if Str.contains "low" t || Str.contains "down" t then Some Small
  else None.

(** The numeric rungs followed by the synonyms, on the lower-cased text. *)
Definition vote_numeric (t : string) : option Side :=
  if Str.any_char_in "6789" t && negb (Str.any_char_in "012345" t) then Some Big
  else if Str.any_char_in "012345" t && negb (Str.any_char_in "6789" t) then Some Small
  else vote_synonyms t.

(** [vote(plan)]: the whole ladder, first match wins. *)
Definition vote (plan : string) : option Side :=
  let t := Str.lower plan in
  if Str.contains "big" t && negb (Str.contains "small" t) then Some Big
  else if Str.contains "small" t && negb (Str.contains "big" t) then Some Small
  else vote_numeric t.

(** ** Numbers *)

Open Scope R_scope.

Module Num.

  (** [x < y] and [x != y] on floats, as booleans. *)
Definition ltb (x y : R) : bool := if Rlt_dec x y then true else false.
Definition neqb (x y : R) : bool := if Req_dec_T x y then false else true.

  (** [x or d] for an optional number: [None] and [0.0] are both falsy. *)
Definition or_default (x : option R) (d : R) : R :=
    match x with
    | Some v => if Req_dec_T v 0 then d else v
    | None => d
    end.

  (** [x if x else None]. *)
Definition if_truthy (x : R) : option R :=
    if Req_dec_T x 0 then None else Some x.

  (** [math.log1p(x)]. *)
Definition log1p (x : R) : R := ln (1 + x).

  (** [x ** y] for a base [x >= 0] and an exponent [y > 0], the only use the
      program makes of it: [0.0 ** y] is [0.0]. *)
Definition pow (x y : R) : R :=
    if Req_dec_T x 0 then 0 else Rpower x y.

  (** [sum(xs)]: the built-in folds from the left, starting at [0]. *)
Definition sum (xs : list R) : R := fold_left Rplus xs 0.

  (** [a < b] on 3-tuples of floats: the first differing component decides. *)
Definition lt3 (a b : R * R * R) : bool :=
    let '(a1, a2, a3) := a in
    let '(b1, b2, b3) := b in
    if neqb a1 b1 then ltb a1 b1
    else if neqb a2 b2 then ltb a2 b2
    else if neqb a3 b3 then ltb a3 b3
    else false.

End Num.

(** ** [list.sort(key=..., reverse=True)]

    The sort is stable and compares keys with [<] only; with [reverse=True]
    the result is descending and records with equal keys keep their input
    order.  Insertion from the right produces that arrangement. *)

Section SortDesc.

Context {A K : Type}.
Variable key : A -> K.
Variable ltb : K -> K -> bool.

Fixpoint insert_desc (x : A) (l : list A) : list A :=
    match l with
    | [] => [x]
    | y :: l' =>
        if ltb (key x) (key y) then y :: insert_desc x l'
        else x :: y :: l'
    end.

Fixpoint sort_desc (l : list A) : list A :=
    match l with
    | [] => []
    | x :: l' => insert_desc x (sort_desc l')
    end.

(** [a] may stand before [b]: the key of [a] is not below the key of [b]. *)
Definition not_below (a b : A) : Prop := ltb (key a) (key b) = false.

End SortDesc.

(** ** Records *)

(** A candidate record, as the extractor returns it. *)
Module Raw.
Record t : Type := mk
    { name : option string;
      hitRate : option R;
      trade : option R;
      plan : option string;
      rawText : option string }.
End Raw.

(** A scored record: the output of [_score], the input of
    [analyze_big_small]. *)
Module Item.
Record t : Type := mk
    { name : option string;
      hit_rate : option R;
      trade : option R;
      plan : option string;
      score : R }.
End Item.

Module Vote.
Record t : Type := mk
    { side : Side;
      weight : R;
      name : option string;
      plan : option string }.
End Vote.

Module Decision.
Record t : Type := mk
    { decision : option Side;
      confidence : R;
      reasons : list Vote.t }.
End Decision.

(** ** The ranker: [_score] *)

(** The multiplier [1.0 + math.log1p(max(trd, 0.0))]. *)
Definition trade_factor (trd : R) : R := 1 + Num.log1p (Rmax trd 0).

(** The body of the loop of [_score]: one output record per input record. *)
Definition score_record (r : Raw.t) : Item.t :=
  let hit := Num.or_default (Raw.hitRate r) 0 in
  let trd := Num.or_default (Raw.trade r) 0 in
  let score := hit * trade_factor trd in
  {| Item.name := Some (Str.strip (Str.or_empty (Raw.name r)));
     Item.hit_rate := Num.if_truthy hit;
     Item.trade := Num.if_truthy trd;
     Item.plan := Some (Str.strip (Str.or_empty (Raw.plan r)));
     Item.score := score |}.

(** The sort key [(x["score"], x["hit_rate"] or -1.0, x["trade"] or -1.0)]. *)
Definition sort_key (x : Item.t) : R * R * R :=
  (Item.score x,
   Num.or_default (Item.hit_rate x) (-1),
   Num.or_default (Item.trade x) (-1)).

Definition _score (items : list Raw.t) : list Item.t :=
  let out := map score_record items in
  firstn 20 (sort_desc sort_key Num.lt3 out).

(** ** The decision aggregator: [analyze_big_small] *)

(** The weight of a record that votes. *)
Definition vote_weight (it : Item.t) : R :=
  Num.pow (Rmax (Num.or_default (Item.hit_rate it) 0) 0) (115 / 100)
  * (1 + Num.log1p (Rmax (Num.or_default (Item.trade it) 0) 0)).

(** The loop that fills [votes]: a record whose plan does not classify is
    skipped. *)
Fixpoint cast_votes (items : list Item.t) : list Vote.t :=
  match items with
  | [] => []
  | it :: rest =>
      match vote (Str.or_empty (Item.plan it)) with
      | None => cast_votes rest
      | Some v =>
          {| Vote.side := v;
             Vote.weight := vote_weight it;
             Vote.name := Item.name it;
             Vote.plan := Item.plan it |} :: cast_votes rest
      end
  end.

(** [sum(v["weight"] for v in votes if v["side"] == s)]. *)
Definition side_score (s : Side) (votes : list Vote.t) : R :=
  Num.sum (map Vote.weight (filter (fun v => Side_eqb (Vote.side v) s) votes)).

(** The "no signal" result. *)
Definition no_signal : Decision.t :=
  {| Decision.decision := None; Decision.confidence := 0; Decision.reasons := [] |}.

Definition analyze_big_small (items : list Item.t) : Decision.t :=
  match items with
  | [] => no_signal
  | _ :: _ =>
      let votes := cast_votes items in
      let big_score := side_score Big votes in
      let small_score := side_score Small votes in
      let total := big_score + small_score in
      if Rle_dec total 0 then no_signal
      else
        let reasons := firstn 5 (sort_desc Vote.weight Num.ltb votes) in
        if Rge_dec big_score small_score then
          {| Decision.decision := Some Big;
             Decision.confidence := big_score / total;
             Decision.reasons := reasons |}
        else
          {| Decision.decision := Some Small;
             Decision.confidence := small_score / total;
             Decision.reasons := reasons |}
  end.

(** ** The specification's reading of "the digits of a plan text"

    These follow the specification's words and are compared with the
    membership tests of [vote] below. *)

Definition is_high_digit (c : ascii) : bool :=
  let n := nat_of_ascii c in (54 <=? n)%nat && (n <=? 57)%nat.

Definition is_low_digit (c : ascii) : bool :=
  let n := nat_of_ascii c in (48 <=? n)%nat && (n <=? 53)%nat.

(** Some character of [s] is one of 6, 7, 8, 9. *)
Definition has_high_digit (s : string) : bool :=
  existsb is_high_digit (list_ascii_of_string s).

(** Some character of [s] is one of 0, 1, 2, 3, 4, 5. *)
Definition has_low_digit (s : string) : bool :=
  existsb is_low_digit (list_ascii_of_string s).

(** Rules 1 and 2 of the ladder, on the lower-cased text. *)
Definition rule_big (t : string) : bool :=
  Str.contains "big" t && negb (Str.contains "small" t).

Definition rule_small (t : string) : bool :=
  Str.contains "small" t && negb (Str.contains "big" t).

(** ** The specification's reading of optional numbers *)

(** "[x] with null replaced by [d]". *)
Definition null_as (d : R) (x : option R) : R :=
  match x with
  | Some v => v
  | None => d
  end.

(** ** Auxiliary notions for the properties below *)

(** [xs or []] for an optional list, as in [page.evaluate(script) or []]. *)
Definition or_nil {A : Type} (xs : option (list A)) : list A :=
  match xs with
  | Some (x :: l) => x :: l
  | _ => []
  end.

(** The record [it] casts a vote. *)
Definition classifies (it : Item.t) : bool :=
  match vote (Str.or_empty (Item.plan it)) with
  | Some _ => true
  | None => false
  end.

(** [s] is not empty and has no white-space character. *)
Definition solid (s : string) : bool :=
  match s with
  | EmptyString => false
  | _ => forallb (fun c => negb (Str.is_space c)) (list_ascii_of_string s)
  end.

(** ** Sample records, used in the examples below *)

Definition raw_alpha : Raw.t :=
  {| Raw.name := Some " Alpha "; Raw.hitRate := Some 80; Raw.trade := Some 120;
     Raw.plan := Some "Big trend"; Raw.rawText := None |}.

Definition raw_beta : Raw.t :=
  {| Raw.name := Some "Beta"; Raw.hitRate := Some 60; Raw.trade := None;
     Raw.plan := Some "small dip"; Raw.rawText := None |}.

Definition item_big : Item.t :=
  {| Item.name := Some "Alpha"; Item.hit_rate := Some 80; Item.trade := Some 120;
     Item.plan := Some "Big trend"; Item.score := 0 |}.

Definition item_mute : Item.t :=
  {| Item.name := Some "Gamma"; Item.hit_rate := Some 90; Item.trade := Some 7;
     Item.plan := Some "3-7 range"; Item.score := 0 |}.

(** * A second reading of the numbers: IEEE doubles

    The definitions above read a Python [float] as a real number.  The ones
    below read it as a double: a finite value, an infinity or NaN, with
    rounding after every operation and the exceptions Python raises.  What
    the program takes from the platform (the rounding of the hardware,
    [math.log1p], the power operator and [list.sort]) is a parameter with the
    contract its documentation gives. *)

Module IEEE.

(** A double.  A finite double is given by its value; the two zeros, which
    the program never tells apart, are both [Fin 0]. *)
Inductive float : Type :=
| Fin (r : R)
| PInf
| NInf
| NaN.

(** [x < y], [x == y], [x <= y], [x >= y]: every comparison with NaN is
    false. *)
Definition ltb (x y : float) : bool :=
  match x, y with
  | Fin a, Fin b => if Rlt_dec a b then true else false
  | Fin _, PInf => true
  | NInf, Fin _ => true
  | NInf, PInf => true
  | _, _ => false
  end.

Definition eqb (x y : float) : bool :=
  match x, y with
  | Fin a, Fin b => if Req_dec_T a b then true else false
  | PInf, PInf => true
  | NInf, NInf => true
  | _, _ => false
  end.

Definition leb (x y : float) : bool := ltb x y || eqb x y.
Definition geb (x y : float) : bool := leb y x.

(** The exceptions the arithmetic of the program can raise. *)
Inductive exn : Type := OverflowError | ZeroDivisionError.

Inductive result (A : Type) : Type :=
| Ok (a : A)
| Raise (e : exn).

Arguments Ok {A} a.
Arguments Raise {A} e.

Definition bind {A B : Type} (m : result A) (f : A -> result B) : result B :=
  match m with
  | Ok a => f a
  | Raise e => Raise e
  end.

(** A comparison is consistent on the keys of a list when it is a strict
    weak order there: asymmetric, and an element placed between two ordered
    ones is ordered with one of them. *)
Definition consistent {A K : Type} (key : A -> K) (lt : K -> K -> bool)
  (l : list A) : Prop :=
  (forall x y, In x l -> In y l ->
               lt (key x) (key y) = true -> lt (key y) (key x) = false)
  /\ (forall x y z, In x l -> In y l -> In z l ->
                    lt (key x) (key z) = true ->
                    lt (key x) (key y) = true \/ lt (key y) (key z) = true).

(** What the program takes from the platform.
    - [rnd] rounds a real result to a double: never NaN, monotone, the
      identity on doubles, exact on 0, 1 and 1/2 and on doubling short of
      overflow.
    - [log1p] is [math.log1p] on arguments that are not negative: finite and
      not negative on a finite argument, small enough for 1 to be added
      without overflow; infinite at infinity; NaN at NaN.
    - [pow] is the operator [**] with a base that is not negative and a
      positive exponent: 0 at 0, 1 at 1, a double that is not negative or
      [OverflowError] on a positive base (an underflow returns 0), infinite
      at infinity, NaN at NaN.
    - [exponent] is the double written [1.15].
    - [sort] is [list.sort(key=..., reverse=True)]: always a rearrangement of
      the list, and the stable descending order when the comparison is
      consistent on the keys. *)
Record Platform : Type := mkPlatform
  { rnd : R -> float;
    rnd_not_nan : forall r, rnd r <> NaN;
    rnd_mono : forall r1 r2, r1 <= r2 -> leb (rnd r1) (rnd r2) = true;
    rnd_idem : forall r r', rnd r = Fin r' -> rnd r' = Fin r';
    rnd_0 : rnd 0 = Fin 0;
    rnd_1 : rnd 1 = Fin 1;
    rnd_half : rnd (1 / 2) = Fin (1 / 2);
    rnd_double : forall r, rnd r = Fin r -> forall d, rnd (2 * r) = Fin d -> d = 2 * r;
    log1p : float -> float;
    log1p_finite : forall r, 0 <= r ->
      exists l f, log1p (Fin r) = Fin l /\ 0 <= l /\ rnd l = Fin l
                  /\ rnd (1 + l) = Fin f;
    log1p_inf : log1p PInf = PInf;
    log1p_nan : log1p NaN = NaN;
    exponent : R;
    exponent_pos : 0 < exponent;
    pow : float -> float -> result float;
    pow_0 : pow (Fin 0) (Fin exponent) = Ok (Fin 0);
    pow_1 : pow (Fin 1) (Fin exponent) = Ok (Fin 1);
    pow_pos : forall r, 0 < r ->
      pow (Fin r) (Fin exponent) = Raise OverflowError
      \/ exists p, pow (Fin r) (Fin exponent) = Ok (Fin p) /\ 0 <= p /\ rnd p = Fin p;
    pow_inf : pow PInf (Fin exponent) = Ok PInf;
    pow_nan : pow NaN (Fin exponent) = Ok NaN;
    sort : forall A K : Type, (A -> K) -> (K -> K -> bool) -> list A -> list A;
    sort_perm : forall A K (key : A -> K) lt l, Permutation (sort A K key lt l) l;
    sort_consistent : forall A K (key : A -> K) lt l,
      consistent key lt l -> sort A K key lt l = sort_desc key lt l }.

Module Raw.
Record t : Type := mk
  { name : option string;
    hitRate : option float;
    trade : option float;
    plan : option string;
    rawText : option string }.
End Raw.

Module Item.
Record t : Type := mk
  { name : option string;
    hit_rate : option float;
    trade : option float;
    plan : option string;
    score : float }.
End Item.

Module Vote.
Record t : Type := mk
  { side : Side;
    weight : float;
    name : option string;
    plan : option string }.
End Vote.

Module Decision.
Record t : Type := mk
  { decision : option Side;
    confidence : float;
    reasons : list Vote.t }.
End Decision.

Module Plans.
Record t : Type := mk
  { items : list Item.t;
    best : option Item.t }.
End Plans.

Section Model.

Variable P : Platform.

(** An infinity multiplied by, or divided by, the finite value [r]. *)
Definition scaled_inf (positive : bool) (r : R) : float :=
  if Req_dec_T r 0 then NaN
  else if Rlt_dec 0 r then (if positive then PInf else NInf)
  else (if positive then NInf else PInf).

(** [x + y]. *)
Definition add (x y : float) : float :=
  match x, y with
  | NaN, _ | _, NaN => NaN
  | Fin a, Fin b => rnd P (a + b)
  | PInf, NInf | NInf, PInf => NaN
  | PInf, _ | _, PInf => PInf
  | NInf, _ | _, NInf => NInf
  end.

(** [x * y]: zero times an infinity is NaN. *)
Definition mul (x y : float) : float :=
  match x, y with
  | NaN, _ | _, NaN => NaN
  | Fin a, Fin b => rnd P (a * b)
  | Fin a, PInf | PInf, Fin a => scaled_inf true a
  | Fin a, NInf | NInf, Fin a => scaled_inf false a
  | PInf, PInf | NInf, NInf => PInf
  | PInf, NInf | NInf, PInf => NInf
  end.

(** [x / y]: a zero divisor raises before anything else is looked at. *)
Definition div (x y : float) : result float :=
  match x, y with
  | _, Fin b =>
      if Req_dec_T b 0 then Raise ZeroDivisionError
      else match x with
           | Fin a => Ok (rnd P (a / b))
           | PInf => Ok (scaled_inf true b)
           | NInf => Ok (scaled_inf false b)
           | NaN => Ok NaN
           end
  | NaN, _ | _, NaN => Ok NaN
  | Fin _, _ => Ok (Fin 0)
  | _, _ => Ok NaN
  end.

(** [max(a, b)]: the first argument stays unless the second is greater. *)
Definition max (a b : float) : float := if ltb a b then b else a.

(** [bool(x)]: only a zero is falsy; NaN is truthy. *)
Definition truthy (x : float) : bool := negb (eqb x (Fin 0)).

(** [x or d] for an optional number. *)
Definition or_default (x : option float) (d : float) : float :=
  match x with
  | Some v => if truthy v then v else d
  | None => d
  end.

(** [x if x else None]. *)
Definition if_truthy (x : float) : option float :=
  if truthy x then Some x else None.

(** [sum(xs)]: from the left, starting at [0]. *)
Definition sum (xs : list float) : float := fold_left add xs (Fin 0).

(** [a < b] on 3-tuples: the first component that differs decides. *)
Definition lt3 (a b : float * float * float) : bool :=
  let '(a1, a2, a3) := a in
  let '(b1, b2, b3) := b in
  if negb (eqb a1 b1) then ltb a1 b1
  else if negb (eqb a2 b2) then ltb a2 b2
  else if negb (eqb a3 b3) then ltb a3 b3
  else false.

(** The loop body of [_score]. *)
Definition score_record (r : Raw.t) : Item.t :=
  let hit := or_default (Raw.hitRate r) (Fin 0) in
  let trd := or_default (Raw.trade r) (Fin 0) in
  let score := mul hit (add (Fin 1) (log1p P (max trd (Fin 0)))) in
  {| Item.name := Some (Str.strip (Str.or_empty (Raw.name r)));
     Item.hit_rate := if_truthy hit;
     Item.trade := if_truthy trd;
     Item.plan := Some (Str.strip (Str.or_empty (Raw.plan r)));
     Item.score := score |}.

(** The sort key [(x["score"], x["hit_rate"] or -1.0, x["trade"] or -1.0)]. *)
Definition sort_key (x : Item.t) : float * float * float :=
  (Item.score x,
   or_default (Item.hit_rate x) (Fin (-1)),
   or_default (Item.trade x) (Fin (-1))).

Definition _score (items : list Raw.t) : list Item.t :=
  let out := map score_record items in
  firstn 20 (sort P _ _ sort_key lt3 out).

(** The weight of a record that votes; the power can raise. *)
Definition vote_weight (it : Item.t) : result float :=
  bind (pow P (max (or_default (Item.hit_rate it) (Fin 0)) (Fin 0))
              (Fin (exponent P)))
       (fun p =>
          Ok (mul p (add (Fin 1)
                         (log1p P (max (or_default (Item.trade it) (Fin 0))
                                       (Fin 0)))))).

(** The loop that fills [votes]; the first weight that raises ends it. *)
Fixpoint cast_votes (items : list Item.t) : result (list Vote.t) :=
  match items with
  | [] => Ok []
  | it :: rest =>
      match vote (Str.or_empty (Item.plan it)) with
      | None => cast_votes rest
      | Some v =>
          bind (vote_weight it) (fun w =>
          bind (cast_votes rest) (fun vs =>
          Ok ({| Vote.side := v; Vote.weight := w;
                 Vote.name := Item.name it;
                 Vote.plan := Item.plan it |} :: vs)))
      end
  end.

Definition side_score (s : Side) (votes : list Vote.t) : float :=
  sum (map Vote.weight (filter (fun v => Side_eqb (Vote.side v) s) votes)).

Definition no_signal : Decision.t :=
  {| Decision.decision := None;
     Decision.confidence := Fin 0;
     Decision.reasons := [] |}.

Definition analyze_big_small (items : list Item.t) : result Decision.t :=
  match items with
  | [] => Ok no_signal
  | _ :: _ =>
      bind (cast_votes items) (fun votes =>
      let big_score := side_score Big votes in
      let small_score := side_score Small votes in
      let total := add big_score small_score in
      if leb total (Fin 0) then Ok no_signal
      else
        let reasons := firstn 5 (sort P _ _ Vote.weight ltb votes) in
        if geb big_score small_score then
          bind (div big_score total) (fun confidence =>
          Ok {| Decision.decision := Some Big;
                Decision.confidence := confidence;
                Decision.reasons := reasons |})
        else
          bind (div small_score total) (fun confidence =>
          Ok {| Decision.decision := Some Small;
                Decision.confidence := confidence;
                Decision.reasons := reasons |}))
  end.

(** The data part of [scrape_plans], from what [page.evaluate(script)]
    returned. *)
Definition scrape_plans (evaluated : option (list Raw.t)) : Plans.t :=
  let raw := or_nil evaluated in
  let top := _score raw in
  let best := match top with
              | [] => None
              | x :: _ => Some x
              end in
  {| Plans.items := top; Plans.best := best |}.

(** The candidates that the cut [out[:20]] of [_score] leaves out. *)
Definition dropped (items : list Raw.t) : list Item.t :=
  skipn 20 (sort P _ _ sort_key lt3 (map score_record items)).

End Model.

(** ** The specification's words, on doubles *)

(** [x] is a finite number. *)
Definition finite (x : float) : Prop := exists r, x = Fin r.

(** [x] is not NaN. *)
Definition is_number (x : float) : Prop := x <> NaN.


(** "[x] is null or a finite number". *)
Definition finite_or_null (x : option float) : Prop :=
  match x with
  | Some v => finite v
  | None => True
  end.

(** "[x] with null replaced by [d]". *)
Definition null_as (d : float) (x : option float) : float :=
  match x with
  | Some v => v
  | None => d
  end.

(** The ordering contract of the ranker between a record and the next. *)
Definition ranked (a b : Item.t) : Prop :=
  geb (Item.score a) (Item.score b) = true
  /\ (eqb (Item.score a) (Item.score b) = true ->
      geb (null_as (Fin (-1)) (Item.hit_rate a))
          (null_as (Fin (-1)) (Item.hit_rate b)) = true)
  /\ (eqb (Item.score a) (Item.score b) = true ->
      eqb (null_as (Fin (-1)) (Item.hit_rate a))
          (null_as (Fin (-1)) (Item.hit_rate b)) = true ->
      geb (null_as (Fin (-1)) (Item.trade a))
          (null_as (Fin (-1)) (Item.trade b)) = true).

(** No component of the sort key of [x] is NaN. *)
Definition key_is_number (x : Item.t) : Prop :=
  let '(k1, k2, k3) := sort_key x in
  is_number k1 /\ is_number k2 /\ is_number k3.

(** The logarithm and the power of an exact platform. *)
Definition exact_log1p (x : float) : float :=
  match x with
  | Fin r => Fin (ln (1 + r))
  | PInf => PInf
  | _ => NaN
  end.

Definition exact_pow (x y : float) : result float :=
  match x, y with
  | Fin r, Fin e =>
      if Req_dec_T r 0 then Ok (Fin 0)
      else if Rlt_dec 0 r then Ok (Fin (Rpower r e))
      else Ok NaN
  | PInf, _ => Ok PInf
  | _, _ => Ok NaN
  end.


(** [a] weighs at least as much as [b]. *)
Definition outweighs (a b : Vote.t) : Prop :=
  geb (Vote.weight a) (Vote.weight b) = true.

(** [a] scores at least as high as [b]. *)
Definition outscores (a b : Item.t) : Prop :=
  geb (Item.score a) (Item.score b) = true.

(** [w] is plus infinity or a double that is not negative. *)
Definition nonneg_double (P : Platform) (w : float) : Prop :=
  w = PInf \/ exists c, w = Fin c /\ 0 <= c /\ rnd P c = Fin c.

(** Sample records on doubles, used in the examples. *)
Definition raw_inf : Raw.t :=
  {| Raw.name := Some "Omega"; Raw.hitRate := None; Raw.trade := Some PInf;
     Raw.plan := Some "Big trend"; Raw.rawText := None |}.

Definition raw_ten : Raw.t :=
  {| Raw.name := Some "Kappa"; Raw.hitRate := Some (Fin 10); Raw.trade := None;
     Raw.plan := Some "small dip"; Raw.rawText := None |}.

Definition raw_five : Raw.t :=
  {| Raw.name := Some "Lambda"; Raw.hitRate := Some (Fin 5); Raw.trade := None;
     Raw.plan := Some "Big trend"; Raw.rawText := None |}.


Definition item_one (plan : string) : Item.t :=
  {| Item.name := Some "Alpha"; Item.hit_rate := Some (Fin 1);
     Item.trade := None; Item.plan := Some plan; Item.score := Fin 1 |}.

Definition item_inf : Item.t :=
  {| Item.name := Some "Omega"; Item.hit_rate := Some (Fin 1);
     Item.trade := Some PInf; Item.plan := Some "Big trend";
     Item.score := PInf |}.


End IEEE.

(** * Properties *)

(** ** Strings *)

Lemma contains_char (c : ascii) (s : string) :
  Str.contains (String c EmptyString) s
  = existsb (Ascii.eqb c) (list_ascii_of_string s).
Proof.
  induction s as [|d s IH]; simpl; [reflexivity|].
  destruct (Ascii.eqb_spec c d) as [->|Hne].
  - destruct (ascii_dec d d) as [_|N]; [|contradiction].
    destruct s; reflexivity.
  - destruct (ascii_dec c d) as [E|_]; [contradiction|]. exact IH.
Qed.

Ltac by_ascii_cases c :=
  destruct c as [[] [] [] [] [] [] [] []]; reflexivity.

Lemma is_high_digit_eqb (c : ascii) :
  is_high_digit c
  = Ascii.eqb "6" c || (Ascii.eqb "7" c || (Ascii.eqb "8" c || (Ascii.eqb "9" c || false))).
Proof. by_ascii_cases c. Qed.

Lemma is_low_digit_eqb (c : ascii) :
  is_low_digit c
  = Ascii.eqb "0" c || (Ascii.eqb "1" c || (Ascii.eqb "2" c || (Ascii.eqb "3" c
    || (Ascii.eqb "4" c || (Ascii.eqb "5" c || false))))).
Proof. by_ascii_cases c. Qed.

Lemma is_high_digit_lower (c : ascii) :
  is_high_digit (Str.lower_ascii c) = is_high_digit c.
Proof. by_ascii_cases c. Qed.

Lemma is_low_digit_lower (c : ascii) :
  is_low_digit (Str.lower_ascii c) = is_low_digit c.
Proof. by_ascii_cases c. Qed.

Lemma existsb_or_false {A} (f g : A -> bool) (l : list A) :
  existsb (fun x => f x || g x) l = existsb f l || existsb g l.
Proof.
  induction l as [|x l IH]; simpl; [reflexivity|].
  rewrite IH. destruct (f x), (g x), (existsb f l), (existsb g l); reflexivity.
Qed.

Lemma existsb_const_false {A} (l : list A) : existsb (fun _ => false) l = false.
Proof. induction l; simpl; auto. Qed.

Lemma existsb_pointwise {A} (f g : A -> bool) (l : list A) :
  (forall x, f x = g x) -> existsb f l = existsb g l.
Proof. intros E. induction l as [|x l IH]; simpl; [reflexivity|]. now rewrite E, IH. Qed.

(** The test [any(ch in t for ch in list("6789"))] says that [t] has a
    character among 6, 7, 8, 9. *)
Lemma any_high_digit (t : string) : Str.any_char_in "6789" t = has_high_digit t.
Proof.
  unfold Str.any_char_in, has_high_digit. simpl.
  rewrite !contains_char.
  rewrite (existsb_pointwise _ _ _ is_high_digit_eqb).
  rewrite !existsb_or_false, existsb_const_false. reflexivity.
Qed.

Lemma any_low_digit (t : string) : Str.any_char_in "012345" t = has_low_digit t.
Proof.
  unfold Str.any_char_in, has_low_digit. simpl.
  rewrite !contains_char.
  rewrite (existsb_pointwise _ _ _ is_low_digit_eqb).
  rewrite !existsb_or_false, existsb_const_false. reflexivity.
Qed.

Lemma has_high_digit_lower (s : string) :
  has_high_digit (Str.lower s) = has_high_digit s.
Proof.
  unfold has_high_digit. induction s as [|c s IH]; simpl; [reflexivity|].
  now rewrite is_high_digit_lower, IH.
Qed.

Lemma has_low_digit_lower (s : string) :
  has_low_digit (Str.lower s) = has_low_digit s.
Proof.
  unfold has_low_digit. induction s as [|c s IH]; simpl; [reflexivity|].
  now rewrite is_low_digit_lower, IH.
Qed.

(** The ladder, with its tests named as the specification names them. *)
Lemma vote_ladder (plan : string) :
  vote plan =
  let t := Str.lower plan in
  if rule_big t then Some Big
  else if rule_small t then Some Small
  else if has_high_digit plan && negb (has_low_digit plan) then Some Big
  else if has_low_digit plan && negb (has_high_digit plan) then Some Small
  else vote_synonyms t.
Proof.
  unfold vote, vote_numeric, rule_big, rule_small. cbv zeta.
  now rewrite any_high_digit, any_low_digit, has_high_digit_lower, has_low_digit_lower.
Qed.

(** ** The classification ladder *)

(** C1, as stated, fails: a text with both "big" and "small" passes rules 1
    and 2 and is then classified by a later rule, here by the digit 7. *)
Lemma vote_big_and_small_can_vote :
  ~ (forall plan : string,
        Str.contains "big" (Str.lower plan) = true ->
        Str.contains "small" (Str.lower plan) = true ->
        vote plan = None).
Proof.
  intros H.
  specialize (H "Big to Small 7" eq_refl eq_refl).
  vm_compute in H. discriminate H.
Qed.

(** C1, amended: for a plan text that contains both "big" and "small", rules 1
    and 2 do not match and the remaining rules decide; the text abstains
    whenever none of rules 3 to 6 matches, that is when it has digits of both
    sets or of neither and none of the synonyms.  "Big to Small swing"
    abstains. *)
Theorem vote_big_and_small :
  (forall plan : string,
      Str.contains "big" (Str.lower plan) = true ->
      Str.contains "small" (Str.lower plan) = true ->
      rule_big (Str.lower plan) = false
      /\ rule_small (Str.lower plan) = false
      /\ vote plan = vote_numeric (Str.lower plan)
      /\ (has_high_digit plan = has_low_digit plan ->
          vote_synonyms (Str.lower plan) = None ->
          vote plan = None))
  /\ vote "Big to Small swing" = None.
Proof.
  split; [|reflexivity].
  intros plan Hb Hs.
  assert (R1 : rule_big (Str.lower plan) = false)
    by (unfold rule_big; now rewrite Hb, Hs).
  assert (R2 : rule_small (Str.lower plan) = false)
    by (unfold rule_small; now rewrite Hb, Hs).
  repeat split; trivial.
  - unfold vote. cbv zeta. now rewrite Hb, Hs.
  - intros Hd Hsyn. rewrite vote_ladder. cbv zeta. rewrite R1, R2, Hd, Hsyn.
    now destruct (has_low_digit plan).
Qed.

Lemma vote_big_and_small_witness :
  vote "big or small, mixed 3-7" = None.
Proof.
  apply (proj1 vote_big_and_small "big or small, mixed 3-7");
    vm_compute; reflexivity.
Defined.

(** C8: when neither rule 1 nor rule 2 matches, a plan text with a digit among
    6..9 and none among 0..5 is Big, one with a digit among 0..5 and none
    among 6..9 is Small, and with digits of both sets the digit rules are
    passed over and the synonyms decide.  "6-9 range" is Big, "0-5 range" is
    Small, "3-7 range" abstains. *)
Theorem vote_digit_rules :
  (forall plan : string,
      rule_big (Str.lower plan) = false ->
      rule_small (Str.lower plan) = false ->
      (has_high_digit plan = true -> has_low_digit plan = false ->
       vote plan = Some Big)
      /\ (has_low_digit plan = true -> has_high_digit plan = false ->
          vote plan = Some Small)
      /\ (has_high_digit plan = true -> has_low_digit plan = true ->
          vote plan = vote_synonyms (Str.lower plan)))
  /\ vote "6-9 range" = Some Big
  /\ vote "0-5 range" = Some Small
  /\ vote "3-7 range" = None.
Proof.
  split; [|repeat split; reflexivity].
  intros plan R1 R2.
  repeat split; intros H1 H2; rewrite vote_ladder; cbv zeta;
    rewrite R1, R2, H1, H2; reflexivity.
Qed.

Lemma vote_digit_rules_witness :
  vote "range 7 to 9" = Some Big
  /\ vote "between 1 and 4" = Some Small
  /\ vote "2 then 8, going up" = Some Big.
Proof.
  split; [|split].
  - apply (proj1 vote_digit_rules "range 7 to 9"); reflexivity.
  - apply (proj1 vote_digit_rules "between 1 and 4"); reflexivity.
  - apply (proj1 vote_digit_rules "2 then 8, going up" eq_refl eq_refl);
      reflexivity.
Defined.

(** ** Numbers *)

Lemma or_default_null_as (x : option R) :
  Num.or_default x 0 = null_as 0 x.
Proof.
  destruct x as [v|]; simpl; [|reflexivity].
  destruct (Req_dec_T v 0) as [->|_]; reflexivity.
Qed.

Lemma ltb_true (x y : R) : Num.ltb x y = true <-> x < y.
Proof. unfold Num.ltb. destruct (Rlt_dec x y); split; intros; try discriminate; auto; lra. Qed.

Lemma ltb_false (x y : R) : Num.ltb x y = false <-> y <= x.
Proof. unfold Num.ltb. destruct (Rlt_dec x y); split; intros; try discriminate; auto; lra. Qed.

Lemma neqb_false (x y : R) : Num.neqb x y = false <-> x = y.
Proof. unfold Num.neqb. destruct (Req_dec_T x y); split; intros; try discriminate; auto; lra. Qed.

Lemma log1p_nonneg (x : R) : 0 <= x -> 0 <= Num.log1p x.
Proof.
  intros Hx. unfold Num.log1p. rewrite <- ln_1.
  destruct Hx as [Hx| <-].
  - left. apply ln_increasing; lra.
  - rewrite Rplus_0_r. lra.
Qed.

Lemma Rmax_0_nonneg (x : R) : 0 <= Rmax x 0.
Proof. apply Rmax_r. Qed.

Lemma pow_1 (y : R) : Num.pow 1 y = 1.
Proof.
  unfold Num.pow. destruct (Req_dec_T 1 0); [lra|].
  unfold Rpower. rewrite ln_1, Rmult_0_r. exact exp_0.
Qed.

(** ** The descending sort *)

Section SortDescFacts.

Context {A K : Type}.
Variable key : A -> K.
Variable ltb : K -> K -> bool.

Lemma insert_desc_perm (x : A) (l : list A) :
  Permutation (insert_desc key ltb x l) (x :: l).
Proof.
  induction l as [|y l IH]; simpl; [reflexivity|].
  destruct (ltb (key x) (key y)); [|reflexivity].
  rewrite IH. apply perm_swap.
Qed.

Lemma sort_desc_perm (l : list A) : Permutation (sort_desc key ltb l) l.
Proof.
  induction l as [|x l IH]; simpl; [reflexivity|].
  rewrite insert_desc_perm. now apply perm_skip.
Qed.

Lemma sort_desc_length (l : list A) : List.length (sort_desc key ltb l) = List.length l.
Proof. apply Permutation_length, sort_desc_perm. Qed.

Hypothesis ltb_asym : forall a b, ltb a b = true -> ltb b a = false.

Lemma insert_desc_hd (x y : A) (l : list A) :
  HdRel (not_below key ltb) y l -> not_below key ltb y x ->
  HdRel (not_below key ltb) y (insert_desc key ltb x l).
Proof.
  intros Hl Hyx. destruct l as [|z l]; simpl.
  - now constructor.
  - destruct (ltb (key x) (key z)); constructor; trivial.
    now inversion Hl.
Qed.

Lemma insert_desc_sorted (x : A) (l : list A) :
  Sorted (not_below key ltb) l -> Sorted (not_below key ltb) (insert_desc key ltb x l).
Proof.
  induction 1 as [|y l Hs IH Hhd]; simpl.
  - repeat constructor.
  - destruct (ltb (key x) (key y)) eqn:E.
    + constructor; [exact IH|].
      apply insert_desc_hd; [exact Hhd|]. now apply ltb_asym.
    + constructor; [now constructor|]. now constructor.
Qed.

Lemma sort_desc_sorted (l : list A) : Sorted (not_below key ltb) (sort_desc key ltb l).
Proof.
  induction l as [|x l IH]; simpl; [constructor|].
  now apply insert_desc_sorted.
Qed.

End SortDescFacts.

Lemma Sorted_firstn {A} (R : A -> A -> Prop) (n : nat) (l : list A) :
  Sorted R l -> Sorted R (firstn n l).
Proof.
  intros H. revert n. induction H as [|x l Hs IH Hhd]; intros n.
  - rewrite firstn_nil. constructor.
  - destruct n as [|n]; simpl; [constructor|].
    constructor; [apply IH|].
    destruct Hhd as [|y l' Hxy]; destruct n; simpl; now constructor.
Qed.

Lemma Sorted_adjacent {A} (R : A -> A -> Prop) (l1 l2 : list A) (a b : A) :
  Sorted R (l1 ++ a :: b :: l2) -> R a b.
Proof.
  induction l1 as [|x l1 IH]; simpl; intros H.
  - apply Sorted_inv in H. destruct H as [_ H]. now inversion H.
  - apply Sorted_inv in H. now apply IH.
Qed.

Lemma ltb_asym (a b : R) : Num.ltb a b = true -> Num.ltb b a = false.
Proof. rewrite ltb_true, ltb_false. lra. Qed.

(** ** The ranker *)

Lemma firstn_In {A} (n : nat) (l : list A) (x : A) : In x (firstn n l) -> In x l.
Proof.
  revert n. induction l as [|y l IH]; intros [|n]; simpl; try tauto.
  intros [->|H]; [now left|right; eauto].
Qed.

(** Every record [_score] returns is the scored form of an input record. *)
Lemma _score_In (items : list Raw.t) (x : Item.t) :
  In x (_score items) -> exists r, In r items /\ x = score_record r.
Proof.
  unfold _score. intros H. apply firstn_In in H.
  apply (Permutation_in _ (sort_desc_perm sort_key Num.lt3 _)) in H.
  apply in_map_iff in H. destruct H as [r [E Hr]]. now exists r.
Qed.

Lemma score_record_score (r : Raw.t) :
  Item.score (score_record r)
  = null_as 0 (Raw.hitRate r) * (1 + ln (1 + Rmax (null_as 0 (Raw.trade r)) 0)).
Proof.
  unfold score_record, trade_factor, Num.log1p. simpl.
  now rewrite !or_default_null_as.
Qed.

Lemma Sorted_weaken {A} (P : A -> Prop) (R1 R2 : A -> A -> Prop) (l : list A) :
  (forall a b, P a -> P b -> R1 a b -> R2 a b) ->
  Forall P l -> Sorted R1 l -> Sorted R2 l.
Proof.
  intros W HP HS. induction HS as [|x l Hs IH Hhd]; [constructor|].
  inversion HP as [|? ? Px Pl]; subst.
  constructor; [now apply IH|].
  destruct Hhd as [|y l' Hxy]; constructor.
  inversion Pl; subst. now apply W.
Qed.

(** C5: the ranker returns at most 20 records and never more than it was
    given; given fewer than 20 it returns all of them, reordered. *)
Theorem ranker_length (items : list Raw.t) :
  (List.length (_score items) <= Nat.min 20 (List.length items))%nat
  /\ (List.length (_score items) <= List.length items)%nat
  /\ ((List.length items < 20)%nat ->
      List.length (_score items) = List.length items
      /\ Permutation (_score items) (map score_record items)).
Proof.
  assert (L : List.length (_score items) = Nat.min 20 (List.length items)).
  { unfold _score. now rewrite length_firstn, sort_desc_length, length_map. }
  split; [lia|]. split; [lia|].
  intros Hlt. split; [lia|].
  unfold _score. rewrite firstn_all2.
  - apply sort_desc_perm.
  - rewrite sort_desc_length, length_map. lia.
Qed.

(** C6: the ranker scores every candidate record [r] as
    [hit * (1 + ln (1 + trd))], with [hit] the hit rate or 0 and [trd] the
    trade count or 0, raised to 0 when negative; when [trd] is 0 the
    multiplier is 1.  The records it returns are the first 20 of the scored
    candidates in rank order, so each carries the score of its candidate. *)
Theorem score_formula (items : list Raw.t) :
  (forall r : Raw.t,
      let hit := null_as 0 (Raw.hitRate r) in
      let trd := Rmax (null_as 0 (Raw.trade r)) 0 in
      Item.score (score_record r) = hit * (1 + ln (1 + trd))
      /\ (trd = 0 -> Item.score (score_record r) = hit * 1))
  /\ (exists rest : list Item.t,
         Permutation (_score items ++ rest)%list (map score_record items))
  /\ Forall (fun x =>
               exists r, In r items /\
                 let hit := null_as 0 (Raw.hitRate r) in
                 let trd := Rmax (null_as 0 (Raw.trade r)) 0 in
                 Item.score x = hit * (1 + ln (1 + trd)))
            (_score items).
Proof.
  split; [|split].
  - intros r. cbv zeta. split; [apply score_record_score|].
    intros E. rewrite score_record_score, E, Rplus_0_r, ln_1. lra.
  - exists (skipn 20 (sort_desc sort_key Num.lt3 (map score_record items))).
    unfold _score. rewrite firstn_skipn. apply sort_desc_perm.
  - apply Forall_forall. intros x Hx.
    destruct (_score_In _ _ Hx) as [r [Hr ->]].
    exists r. split; [exact Hr|]. apply score_record_score.
Qed.

Lemma lt3_first (a1 a2 a3 b1 b2 b3 : R) :
  a1 < b1 -> Num.lt3 (a1, a2, a3) (b1, b2, b3) = true.
Proof.
  intros H. unfold Num.lt3.
  destruct (Num.neqb a1 b1) eqn:E.
  - now apply ltb_true.
  - apply neqb_false in E. lra.
Qed.

Lemma raw_beta_below_alpha :
  Item.score (score_record raw_beta) < Item.score (score_record raw_alpha).
Proof.
  rewrite !score_record_score. simpl.
  rewrite (Rmax_left 0 0) by lra. rewrite Rplus_0_r, ln_1.
  pose proof (log1p_nonneg _ (Rmax_0_nonneg 120)) as H. unfold Num.log1p in H.
  lra.
Qed.

Lemma _score_beta_alpha :
  _score [raw_beta; raw_alpha] = [score_record raw_alpha; score_record raw_beta].
Proof.
  unfold _score. cbn [map sort_desc insert_desc].
  unfold sort_key at 1 2. rewrite lt3_first by exact raw_beta_below_alpha.
  reflexivity.
Qed.

Lemma ranker_length_witness :
  List.length (_score [raw_beta; raw_alpha]) = 2%nat
  /\ Permutation (_score [raw_beta; raw_alpha])
                 (map score_record [raw_beta; raw_alpha]).
Proof.
  apply (proj2 (proj2 (ranker_length [raw_beta; raw_alpha]))).
  simpl. lia.
Defined.

Lemma score_formula_witness :
  exists r, In r [raw_beta; raw_alpha] /\
    Item.score (score_record raw_alpha)
    = null_as 0 (Raw.hitRate r) * (1 + ln (1 + Rmax (null_as 0 (Raw.trade r)) 0)).
Proof.
  pose proof (proj2 (proj2 (score_formula [raw_beta; raw_alpha]))) as H.
  rewrite _score_beta_alpha in H. apply Forall_inv in H.
  destruct H as [r [Hr E]]. exists r. split; [exact Hr|exact E].
Defined.

(** ** The decision aggregator *)

Lemma side_score_nil (s : Side) : side_score s [] = 0.
Proof. reflexivity. Qed.




Lemma share_bounds (a b : R) :
  0 < b -> b <= 2 * a -> a <= b -> 1 / 2 <= a / b <= 1.
Proof.
  intros Hb H1 H2. unfold Rdiv.
  pose proof (Rinv_0_lt_compat b Hb) as Hi.
  assert (E : b * / b = 1) by (apply Rinv_r; lra).
  split; nra.
Qed.

Lemma StronglySorted_app_inv {A} (R : A -> A -> Prop) (l1 l2 : list A) :
  StronglySorted R (l1 ++ l2) ->
  forall x y, In x l1 -> In y l2 -> R x y.
Proof.
  induction l1 as [|a l1 IH]; simpl; intros H x y Hx Hy; [tauto|].
  apply StronglySorted_inv in H. destruct H as [Hs Hall].
  destruct Hx as [<-|Hx].
  - rewrite Forall_forall in Hall. apply Hall, in_or_app. now right.
  - now apply (IH Hs).
Qed.

Lemma sort_desc_repeat {A K : Type} (key : A -> K) (ltb : K -> K -> bool)
  (x : A) (n : nat) :
  ltb (key x) (key x) = false ->
  sort_desc key ltb (repeat x n) = repeat x n.
Proof.
  intros Hx. induction n as [|n IH]; [reflexivity|].
  cbn [repeat sort_desc]. rewrite IH.
  destruct n; cbn [repeat insert_desc]; [reflexivity|now rewrite Hx].
Qed.

(** ** Trimming *)

Lemma rstrip_cases (c : ascii) (s : string) :
  (Str.rstrip s = EmptyString /\ Str.is_space c = true
   /\ Str.rstrip (String c s) = EmptyString)
  \/ (Str.rstrip s = EmptyString /\ Str.is_space c = false
      /\ Str.rstrip (String c s) = String c EmptyString)
  \/ (Str.rstrip s <> EmptyString
      /\ Str.rstrip (String c s) = String c (Str.rstrip s)).
Proof.
  simpl. destruct (Str.rstrip s) eqn:E.
  - destruct (Str.is_space c); auto.
  - right. right. split; [discriminate|reflexivity].
Qed.

(** ** Classification, letter case and outer white space *)

Lemma lower_ascii_idempotent (c : ascii) :
  Str.lower_ascii (Str.lower_ascii c) = Str.lower_ascii c.
Proof. by_ascii_cases c. Qed.

Lemma lower_idempotent (s : string) : Str.lower (Str.lower s) = Str.lower s.
Proof.
  induction s as [|c s IH]; simpl; [reflexivity|].
  now rewrite lower_ascii_idempotent, IH.
Qed.

Lemma is_space_lower (c : ascii) :
  Str.is_space (Str.lower_ascii c) = Str.is_space c.
Proof. by_ascii_cases c. Qed.

Lemma lower_lstrip (s : string) :
  Str.lower (Str.lstrip s) = Str.lstrip (Str.lower s).
Proof.
  induction s as [|c s IH]; simpl; [reflexivity|].
  rewrite is_space_lower. destruct (Str.is_space c); [exact IH|reflexivity].
Qed.

Lemma lower_rstrip (s : string) :
  Str.lower (Str.rstrip s) = Str.rstrip (Str.lower s).
Proof.
  induction s as [|c s IH]; simpl; [reflexivity|].
  rewrite <- IH, is_space_lower.
  destruct (Str.rstrip s); simpl; [destruct (Str.is_space c)|]; reflexivity.
Qed.

Lemma lower_strip (s : string) :
  Str.lower (Str.strip s) = Str.strip (Str.lower s).
Proof. unfold Str.strip. now rewrite lower_rstrip, lower_lstrip. Qed.

Lemma prefix_nil (kw : string) :
  String.prefix kw EmptyString = match kw with EmptyString => true | _ => false end.
Proof. destruct kw; reflexivity. Qed.

Lemma prefix_rstrip (kw t : string) :
  forallb (fun c => negb (Str.is_space c)) (list_ascii_of_string kw) = true ->
  String.prefix kw (Str.rstrip t) = String.prefix kw t.
Proof.
  revert kw. induction t as [|d t IH]; intros kw Hkw; [reflexivity|].
  destruct kw as [|a k]; [now destruct (Str.rstrip (String d t))|].
  simpl in Hkw. apply andb_true_iff in Hkw. destruct Hkw as [Ha Hk].
  apply negb_true_iff in Ha.
  specialize (IH k Hk).
  destruct (rstrip_cases d t) as [[Z [Hd ->]]|[[Z [Hd ->]]|[_ ->]]]; simpl.
  - destruct (ascii_dec a d) as [->|_]; [congruence|reflexivity].
  - destruct (ascii_dec a d); [|reflexivity]. now rewrite <- IH, Z.
  - destruct (ascii_dec a d); [exact IH|reflexivity].
Qed.

Lemma contains_cons (kw : string) (d : ascii) (t : string) :
  Str.contains kw (String d t)
  = String.prefix kw (String d t) || Str.contains kw t.
Proof. simpl. now destruct (String.prefix kw (String d t)). Qed.

Lemma contains_nil_solid (kw : string) :
  solid kw = true -> Str.contains kw EmptyString = false.
Proof. destruct kw; [discriminate|reflexivity]. Qed.

Lemma solid_nospace (kw : string) :
  solid kw = true ->
  forallb (fun c => negb (Str.is_space c)) (list_ascii_of_string kw) = true.
Proof. destruct kw; [discriminate|trivial]. Qed.

Lemma contains_rstrip (kw t : string) :
  solid kw = true -> Str.contains kw (Str.rstrip t) = Str.contains kw t.
Proof.
  intros Hkw. pose proof (solid_nospace _ Hkw) as Hns.
  induction t as [|d t IH]; [reflexivity|].
  rewrite contains_cons, <- (prefix_rstrip kw (String d t) Hns), <- IH.
  destruct (rstrip_cases d t) as [[Z [_ ->]]|[[Z [_ ->]]|[_ ->]]].
  - rewrite Z, (contains_nil_solid _ Hkw). now rewrite orb_false_r, prefix_nil;
      destruct kw.
  - now rewrite Z, contains_cons.
  - now rewrite contains_cons.
Qed.

Lemma contains_lstrip (kw t : string) :
  solid kw = true -> Str.contains kw (Str.lstrip t) = Str.contains kw t.
Proof.
  intros Hkw. induction t as [|d t IH]; [reflexivity|].
  cbn [Str.lstrip]. destruct (Str.is_space d) eqn:Hd; [|reflexivity].
  rewrite IH, contains_cons.
  destruct kw as [|a k]; [discriminate|].
  simpl in Hkw. apply andb_true_iff in Hkw. destruct Hkw as [Ha _].
  apply negb_true_iff in Ha. simpl.
  destruct (ascii_dec a d) as [->|_]; [congruence|reflexivity].
Qed.

Lemma contains_strip (kw t : string) :
  solid kw = true -> Str.contains kw (Str.strip t) = Str.contains kw t.
Proof.
  intros Hkw. unfold Str.strip.
  now rewrite contains_rstrip, contains_lstrip.
Qed.

Lemma vote_strip (s : string) : vote (Str.strip s) = vote s.
Proof.
  unfold vote, vote_numeric, vote_synonyms, Str.any_char_in. cbv zeta.
  rewrite lower_strip. cbn [Str.chars existsb].
  now rewrite !contains_strip by reflexivity.
Qed.

(** X7: the trimming of the ranker never changes a classification.  A plan
    text and its stripped form get the same vote, so a record returned by the
    ranker is classified as its candidate's plan would be. *)
Theorem vote_ignores_trimming :
  (forall s : string, vote (Str.strip s) = vote s)
  /\ (forall r : Raw.t,
         vote (Str.or_empty (Item.plan (score_record r)))
         = vote (Str.or_empty (Raw.plan r))).
Proof.
  split; [exact vote_strip|]. intros r. simpl. apply vote_strip.
Qed.

(** X8: the classification ignores letter case: lower-casing a plan text
    does not change its vote, and two texts with the same lower-cased form
    get the same vote. *)
Theorem vote_case_insensitive :
  (forall s : string, vote (Str.lower s) = vote s)
  /\ (forall p q : string, Str.lower p = Str.lower q -> vote p = vote q).
Proof.
  split.
  - intros s. unfold vote. now rewrite lower_idempotent.
  - intros p q E. unfold vote. now rewrite E.
Qed.

Lemma vote_case_insensitive_witness : vote "BIG Trend" = vote "big trend".
Proof.
  apply (proj2 vote_case_insensitive "BIG Trend" "big trend").
  reflexivity.
Defined.

(** X9: a vote always has evidence for its side in the lower-cased text.  A
    Big vote needs "big", a digit among 6..9, "high" or "up"; a Small vote
    needs "small", a digit among 0..5, "low" or "down"; a text with none of
    these words and no digit abstains. *)
Theorem vote_evidence (plan : string) :
  let t := Str.lower plan in
  (vote plan = Some Big ->
   Str.contains "big" t = true \/ has_high_digit plan = true
   \/ Str.contains "high" t = true \/ Str.contains "up" t = true)
  /\ (vote plan = Some Small ->
      Str.contains "small" t = true \/ has_low_digit plan = true
      \/ Str.contains "low" t = true \/ Str.contains "down" t = true)
  /\ (Str.contains "big" t = false -> Str.contains "small" t = false ->
      has_high_digit plan = false -> has_low_digit plan = false ->
      vote_synonyms t = None -> vote plan = None).
Proof.
  rewrite vote_ladder. cbv zeta. unfold rule_big, rule_small, vote_synonyms.
  destruct (Str.contains "big" (Str.lower plan)),
           (Str.contains "small" (Str.lower plan)),
           (has_high_digit plan), (has_low_digit plan),
           (Str.contains "high" (Str.lower plan)),
           (Str.contains "up" (Str.lower plan)),
           (Str.contains "low" (Str.lower plan)),
           (Str.contains "down" (Str.lower plan));
    simpl; repeat split; intros; try discriminate; auto.
Qed.

Lemma vote_evidence_witness :
  Str.contains "big" (Str.lower "Trend UP") = true
  \/ has_high_digit "Trend UP" = true
  \/ Str.contains "high" (Str.lower "Trend UP") = true
  \/ Str.contains "up" (Str.lower "Trend UP") = true.
Proof.
  apply (proj1 (vote_evidence "Trend UP")). reflexivity.
Defined.

(** * Further properties of the decision aggregator *)

(** The result depends on the input only through the votes cast. *)
Lemma analyze_big_small_votes (l1 l2 : list Item.t) :
  cast_votes l1 = cast_votes l2 -> analyze_big_small l1 = analyze_big_small l2.
Proof.
  assert (N : forall it l, cast_votes (it :: l) = [] ->
                           analyze_big_small (it :: l) = no_signal).
  { intros it l E. unfold analyze_big_small. rewrite E, !side_score_nil.
    destruct (Rle_dec (0 + 0) 0) as [_|H]; [reflexivity|lra]. }
  intros E. destruct l1 as [|a l1], l2 as [|b l2].
  - reflexivity.
  - symmetry. apply N. now rewrite <- E.
  - now apply N.
  - unfold analyze_big_small. now rewrite E.
Qed.

Lemma cast_votes_filter (items : list Item.t) :
  cast_votes (filter classifies items) = cast_votes items.
Proof.
  induction items as [|it items IH]; [reflexivity|].
  cbn [filter]. unfold classifies at 1.
  destruct (vote (Str.or_empty (Item.plan it))) eqn:E; cbn [cast_votes]; rewrite E.
  - now rewrite IH.
  - exact IH.
Qed.

(** X10: records whose plan does not classify have no influence: removing
    all of them, or adding one in front, leaves the whole result unchanged. *)
Theorem abstainers_ignored (items : list Item.t) :
  analyze_big_small (filter classifies items) = analyze_big_small items
  /\ (forall it : Item.t,
         classifies it = false ->
         analyze_big_small (it :: items) = analyze_big_small items).
Proof.
  split.
  - apply analyze_big_small_votes, cast_votes_filter.
  - intros it H. apply analyze_big_small_votes. cbn [cast_votes].
    unfold classifies in H.
    now destruct (vote (Str.or_empty (Item.plan it))).
Qed.

Lemma abstainers_ignored_witness :
  analyze_big_small [item_mute; item_big] = analyze_big_small [item_big].
Proof.
  apply (proj2 (abstainers_ignored [item_big]) item_mute). reflexivity.
Defined.

Lemma StronglySorted_firstn {A} (R : A -> A -> Prop) (n : nat) (l : list A) :
  StronglySorted R l -> StronglySorted R (firstn n l).
Proof.
  intros H. revert n. induction H as [|x l Hs IH Hall]; intros n.
  - rewrite firstn_nil. constructor.
  - destruct n as [|n]; cbn [firstn]; constructor; [apply IH|].
    apply Forall_forall. intros y Hy. apply firstn_In in Hy.
    rewrite Forall_forall in Hall. now apply Hall.
Qed.

(** * Properties on doubles *)

Ltac decide_reals :=
  repeat match goal with
         | |- context [Rlt_dec ?a ?b] => destruct (Rlt_dec a b); try lra
         | |- context [Req_dec_T ?a ?b] => destruct (Req_dec_T a b); try lra
         | H : context [Rlt_dec ?a ?b] |- _ => destruct (Rlt_dec a b); try lra
         | H : context [Req_dec_T ?a ?b] |- _ => destruct (Req_dec_T a b); try lra
         end.

Ltac fl_cases :=
  simpl; decide_reals; intros;
  try discriminate; try reflexivity; try congruence; auto; try lra.

Section Doubles.

Import IEEE.

Lemma Ok_inj {A : Type} (a b : A) : Ok a = Ok b -> a = b.
Proof. intros H. now injection H. Qed.

(** ** Comparisons *)

Lemma fl_ltb_Fin (a b : R) : ltb (Fin a) (Fin b) = true <-> a < b.
Proof. simpl. destruct (Rlt_dec a b); split; intros; try discriminate; auto; lra. Qed.

Lemma fl_eqb_Fin (a b : R) : eqb (Fin a) (Fin b) = true <-> a = b.
Proof. simpl. destruct (Req_dec_T a b); split; intros; try discriminate; auto; lra. Qed.

Lemma fl_leb_Fin (a b : R) : leb (Fin a) (Fin b) = true <-> a <= b.
Proof.
  unfold leb. rewrite orb_true_iff, fl_ltb_Fin, fl_eqb_Fin. lra.
Qed.

Lemma fl_leb_nan_r (x : float) : leb x NaN = false.
Proof. now destruct x. Qed.

Lemma fl_leb_nan_l (x : float) : leb NaN x = false.
Proof. now destruct x. Qed.

Lemma fl_eqb_sym (x y : float) : eqb x y = eqb y x.
Proof. destruct x, y; fl_cases. Qed.

Lemma fl_ltb_asym (x y : float) : ltb x y = true -> ltb y x = false.
Proof. destruct x, y; fl_cases. Qed.

Lemma fl_leb_trans (x y z : float) :
  leb x y = true -> leb y z = true -> leb x z = true.
Proof.
  destruct x, y, z; unfold leb; fl_cases.
Qed.

(** For numbers, not below is at least. *)
Lemma fl_not_ltb (x y : float) :
  is_number x -> is_number y -> ltb x y = false -> geb x y = true.
Proof.
  unfold is_number, geb, leb.
  destruct x, y; fl_cases.
Qed.

(** One step of the lexicographic comparison, with [t..] the comparison of
    the remaining components. *)
Lemma lex_step_asym (x y : float) (txy tyx : bool) :
  (txy = true -> tyx = false) ->
  (if negb (eqb x y) then ltb x y else txy) = true ->
  (if negb (eqb y x) then ltb y x else tyx) = false.
Proof.
  intros H. rewrite (fl_eqb_sym y x).
  destruct (eqb x y); simpl; [exact H|apply fl_ltb_asym].
Qed.

Lemma lex_step_between (x y z : float) (txy tyz txz : bool) :
  is_number x -> is_number y -> is_number z ->
  (txz = true -> txy = true \/ tyz = true) ->
  (if negb (eqb x z) then ltb x z else txz) = true ->
  (if negb (eqb x y) then ltb x y else txy) = true
  \/ (if negb (eqb y z) then ltb y z else tyz) = true.
Proof.
  unfold is_number. intros Hx Hy Hz H.
  destruct x, y, z; fl_cases.
Qed.

Lemma lt3_asym_doubles (a b : float * float * float) :
  lt3 a b = true -> lt3 b a = false.
Proof.
  destruct a as [[a1 a2] a3], b as [[b1 b2] b3]. unfold lt3.
  apply lex_step_asym. apply lex_step_asym. apply lex_step_asym. discriminate.
Qed.

Lemma lt3_between (a b c : float * float * float) :
  (let '(b1, b2, b3) := b in is_number b1 /\ is_number b2 /\ is_number b3) ->
  (let '(a1, a2, a3) := a in is_number a1 /\ is_number a2 /\ is_number a3) ->
  (let '(c1, c2, c3) := c in is_number c1 /\ is_number c2 /\ is_number c3) ->
  lt3 a c = true -> lt3 a b = true \/ lt3 b c = true.
Proof.
  destruct a as [[a1 a2] a3], b as [[b1 b2] b3], c as [[c1 c2] c3].
  intros [B1 [B2 B3]] [A1 [A2 A3]] [C1 [C2 C3]]. unfold lt3.
  apply lex_step_between; trivial.
  apply lex_step_between; trivial.
  apply lex_step_between; trivial.
  discriminate.
Qed.

(** What "not below" says for two keys without NaN. *)
Lemma lt3_false_doubles (a1 a2 a3 b1 b2 b3 : float) :
  is_number a1 -> is_number a2 -> is_number a3 ->
  is_number b1 -> is_number b2 -> is_number b3 ->
  lt3 (a1, a2, a3) (b1, b2, b3) = false ->
  geb a1 b1 = true
  /\ (eqb a1 b1 = true -> geb a2 b2 = true)
  /\ (eqb a1 b1 = true -> eqb a2 b2 = true -> geb a3 b3 = true).
Proof.
  intros A1 A2 A3 B1 B2 B3. unfold lt3.
  destruct (eqb a1 b1) eqn:E1; simpl.
  - assert (G1 : geb a1 b1 = true)
      by (unfold geb, leb; now rewrite (fl_eqb_sym b1 a1), E1, orb_true_r).
    destruct (eqb a2 b2) eqn:E2; simpl.
    + assert (G2 : geb a2 b2 = true)
        by (unfold geb, leb; now rewrite (fl_eqb_sym b2 a2), E2, orb_true_r).
      destruct (eqb a3 b3) eqn:E3; simpl.
      * intros _. repeat split; trivial. intros _ _.
        unfold geb, leb. now rewrite (fl_eqb_sym b3 a3), E3, orb_true_r.
      * intros H. repeat split; trivial. intros _ _. now apply fl_not_ltb.
    + intros H. repeat split; trivial; [|discriminate].
      intros _. now apply fl_not_ltb.
  - intros H. split; [now apply fl_not_ltb|]. split; discriminate.
Qed.

(** ** An exact platform

    The contract is satisfiable: exact arithmetic without overflow, the
    logarithm and the power of the reals, and the stable insertion sort meet
    it.  It serves as the platform of the examples. *)

Lemma exact_rnd_mono (r1 r2 : R) : r1 <= r2 -> leb (Fin r1) (Fin r2) = true.
Proof. intros H. now apply fl_leb_Fin. Qed.

Lemma exact_log1p_finite (r : R) :
  0 <= r ->
  exists l f, exact_log1p (Fin r) = Fin l /\ 0 <= l /\ Fin l = Fin l
              /\ Fin (1 + l) = Fin f.
Proof.
  intros Hr. exists (ln (1 + r)), (1 + ln (1 + r)). simpl.
  repeat split. rewrite <- ln_1.
  destruct Hr as [Hr| <-]; [left; apply ln_increasing; lra|].
  rewrite Rplus_0_r. lra.
Qed.

Lemma exact_pow_0 : exact_pow (Fin 0) (Fin (115 / 100)) = Ok (Fin 0).
Proof. unfold exact_pow. decide_reals. reflexivity. Qed.

Lemma exact_pow_1 : exact_pow (Fin 1) (Fin (115 / 100)) = Ok (Fin 1).
Proof.
  unfold exact_pow. decide_reals.
  unfold Rpower. now rewrite ln_1, Rmult_0_r, exp_0.
Qed.

Lemma exact_pow_pos (r : R) :
  0 < r ->
  exact_pow (Fin r) (Fin (115 / 100)) = Raise OverflowError
  \/ exists p, exact_pow (Fin r) (Fin (115 / 100)) = Ok (Fin p)
               /\ 0 <= p /\ Fin p = Fin p.
Proof.
  intros Hr. right. exists (Rpower r (115 / 100)).
  unfold exact_pow. decide_reals.
  repeat split. left. unfold Rpower. apply exp_pos.
Qed.

Definition exact : Platform :=
  {| rnd := Fin;
     rnd_not_nan := fun r H => eq_ind (Fin r) (fun x => match x with NaN => False | _ => True end) I NaN H;
     rnd_mono := exact_rnd_mono;
     rnd_idem := fun r r' H => eq_refl;
     rnd_0 := eq_refl;
     rnd_1 := eq_refl;
     rnd_half := eq_refl;
     rnd_double := fun r _ d H => eq_sym (f_equal (fun x => match x with Fin v => v | _ => 0 end) H);
     log1p := exact_log1p;
     log1p_finite := exact_log1p_finite;
     log1p_inf := eq_refl;
     log1p_nan := eq_refl;
     exponent := 115 / 100;
     exponent_pos := ltac:(lra);
     pow := exact_pow;
     pow_0 := exact_pow_0;
     pow_1 := exact_pow_1;
     pow_pos := exact_pow_pos;
     pow_inf := eq_refl;
     pow_nan := eq_refl;
     sort := fun A K => @sort_desc A K;
     sort_perm := fun A K key lt l => sort_desc_perm key lt l;
     sort_consistent := fun A K key lt l _ => eq_refl |}.

(** ** Rounding *)

Variable P : Platform.

Lemma rnd_cases (r : R) :
  (exists c, rnd P r = Fin c) \/ rnd P r = PInf \/ rnd P r = NInf.
Proof.
  pose proof (rnd_not_nan P r) as N.
  destruct (rnd P r) as [c| | |]; eauto. now contradiction N.
Qed.

Lemma rnd_lower (a r : R) :
  rnd P a = Fin a -> a <= r -> leb (Fin a) (rnd P r) = true.
Proof. intros Ea H. rewrite <- Ea. now apply rnd_mono. Qed.

Lemma rnd_upper (b r : R) :
  rnd P b = Fin b -> r <= b -> leb (rnd P r) (Fin b) = true.
Proof. intros Eb H. rewrite <- Eb. now apply rnd_mono. Qed.

Lemma rnd_nonneg (r : R) : 0 <= r -> leb (Fin 0) (rnd P r) = true.
Proof. apply rnd_lower, rnd_0. Qed.

(** A result between two doubles is a double between them. *)
Lemma rnd_between (a b r : R) :
  rnd P a = Fin a -> rnd P b = Fin b -> a <= r <= b ->
  exists c, rnd P r = Fin c /\ a <= c <= b.
Proof.
  intros Ea Eb [H1 H2].
  pose proof (rnd_lower a r Ea H1) as L.
  pose proof (rnd_upper b r Eb H2) as U.
  destruct (rnd P r) as [c| | |]; try discriminate.
  exists c. apply fl_leb_Fin in L. apply fl_leb_Fin in U. auto.
Qed.

(** ** The multiplier of the trade count *)

Lemma max_zero_cases (t : float) :
  (exists m, max t (Fin 0) = Fin m /\ 0 <= m)
  \/ (t = PInf /\ max t (Fin 0) = PInf)
  \/ (t = NaN /\ max t (Fin 0) = NaN).
Proof.
  unfold max. destruct t as [r| | |]; simpl; auto.
  - left. destruct (Rlt_dec r 0); [exists 0|exists r]; split; trivial; lra.
  - left. exists 0. split; [reflexivity|lra].
Qed.

(** [1.0 + math.log1p(max(t, 0.0))] is a double of at least 1, unless [t] is
    plus infinity or NaN. *)
Lemma factor_cases (t : float) :
  (exists f, add P (Fin 1) (log1p P (max t (Fin 0))) = Fin f
             /\ 1 <= f /\ rnd P f = Fin f /\ t <> PInf /\ t <> NaN)
  \/ (t = PInf /\ add P (Fin 1) (log1p P (max t (Fin 0))) = PInf)
  \/ (t = NaN /\ add P (Fin 1) (log1p P (max t (Fin 0))) = NaN).
Proof.
  destruct (max_zero_cases t) as [[m [E Hm]]|[[-> E]|[-> E]]]; rewrite E.
  - left. destruct (log1p_finite P m Hm) as [l [f [El [Hl [_ Ef]]]]].
    exists f. rewrite El. simpl. rewrite Ef.
    split; [reflexivity|]. split; [|split].
    + pose proof (rnd_lower 1 (1 + l) (rnd_1 P)) as L.
      rewrite Ef in L. apply fl_leb_Fin, L. lra.
    + exact (rnd_idem P _ _ Ef).
    + split; intros ->; unfold max in E; simpl in E; discriminate.
  - right. left. now rewrite log1p_inf.
  - right. right. now rewrite log1p_nan.
Qed.

Lemma or_default_cases (x : option float) (d : float) :
  (or_default x d = d /\ (x = None \/ exists v, x = Some v /\ eqb v (Fin 0) = true))
  \/ (exists v, x = Some v /\ or_default x d = v /\ eqb v (Fin 0) = false).
Proof.
  destruct x as [v|]; simpl; [|auto]. unfold truthy.
  destruct (eqb v (Fin 0)) eqn:E; simpl.
  - left. split; [reflexivity|]. right. now exists v.
  - right. now exists v.
Qed.


Lemma or_default_not (x : option float) (d bad : float) :
  d <> bad -> x <> Some bad -> or_default x d <> bad.
Proof.
  intros Hd Hx.
  destruct (or_default_cases x d) as [[-> _]|[v [-> [-> _]]]]; congruence.
Qed.

(** ** The ranker on doubles *)

Lemma _score_In_doubles (items : list Raw.t) (x : Item.t) :
  In x (_score P items) -> exists r, In r items /\ x = score_record P r.
Proof.
  unfold _score. intros H. apply firstn_In in H.
  apply (Permutation_in _ (sort_perm P _ _ sort_key lt3 _)) in H.
  apply in_map_iff in H. destruct H as [r [E Hr]]. now exists r.
Qed.



Lemma or_default_if_truthy_doubles (h d : float) :
  or_default (if_truthy h) d = null_as d (if_truthy h).
Proof.
  unfold if_truthy. destruct (truthy h) eqn:E; simpl; [|reflexivity].
  now rewrite E.
Qed.

(** On a scored record the sort key reads the optional fields with null
    replaced by -1: [_score] never stores a zero there. *)
Lemma sort_key_score_record_doubles (r : Raw.t) :
  let x := score_record P r in
  sort_key x
  = (Item.score x, null_as (Fin (-1)) (Item.hit_rate x),
     null_as (Fin (-1)) (Item.trade x)).
Proof.
  cbv zeta. unfold sort_key, score_record. cbn [Item.score Item.hit_rate Item.trade].
  now rewrite !or_default_if_truthy_doubles.
Qed.

Lemma not_below_ranked_doubles (r1 r2 : Raw.t) :
  key_is_number (score_record P r1) -> key_is_number (score_record P r2) ->
  not_below sort_key lt3 (score_record P r1) (score_record P r2) ->
  ranked (score_record P r1) (score_record P r2).
Proof.
  unfold key_is_number, not_below.
  rewrite (sort_key_score_record_doubles r1), (sort_key_score_record_doubles r2).
  intros [A1 [A2 A3]] [B1 [B2 B3]]. now apply lt3_false_doubles.
Qed.

Lemma consistent_keys (l : list Item.t) :
  Forall key_is_number l -> consistent sort_key lt3 l.
Proof.
  intros H. rewrite Forall_forall in H. split.
  - intros x y _ _. apply lt3_asym_doubles.
  - intros x y z Hx Hy Hz. apply lt3_between; [apply (H y Hy)|apply (H x Hx)|apply (H z Hz)].
Qed.

(** A record whose hit rate and trade count are null or finite has a sort
    key without NaN. *)
Lemma finite_key_is_number (r : Raw.t) :
  finite_or_null (Raw.hitRate r) -> finite_or_null (Raw.trade r) ->
  key_is_number (score_record P r).
Proof.
  intros Hh Ht.
  assert (F : forall x, finite_or_null x -> finite (or_default x (Fin 0))).
  { intros x Hx. destruct (or_default_cases x (Fin 0)) as [[-> _]|[v [-> [-> _]]]];
      [now exists 0|exact Hx]. }
  destruct (F _ Hh) as [h Eh]. destruct (F _ Ht) as [t Et].
  assert (N : forall v, is_number (null_as (Fin (-1)) (if_truthy (Fin v)))).
  { intros v. unfold if_truthy. destruct (truthy (Fin v)); discriminate. }
  unfold key_is_number. rewrite sort_key_score_record_doubles.
  unfold score_record. cbn [Item.score Item.hit_rate Item.trade].
  rewrite Eh, Et. split; [|split; apply N].
  destruct (factor_cases (Fin t)) as [[f [-> _]]|[[E _]|[E _]]]; try discriminate.
  simpl. apply rnd_not_nan.
Qed.

Lemma _score_Sorted_doubles (items : list Raw.t) :
  Forall (fun r => key_is_number (score_record P r)) items ->
  Sorted ranked (_score P items).
Proof.
  intros H.
  assert (K : Forall key_is_number (map (score_record P) items)).
  { apply Forall_forall. intros x Hx. apply in_map_iff in Hx.
    destruct Hx as [r [<- Hr]]. rewrite Forall_forall in H. now apply H. }
  apply (Sorted_weaken (fun x => exists r, In r items /\ x = score_record P r)
           (not_below sort_key lt3)).
  - intros a b [ra [Ha ->]] [rb [Hb ->]]. rewrite Forall_forall in H.
    apply not_below_ranked_doubles; now apply H.
  - apply Forall_forall. intros x Hx. exact (_score_In_doubles _ _ Hx).
  - unfold _score. rewrite (sort_consistent P _ _ _ _ _ (consistent_keys _ K)).
    apply Sorted_firstn, sort_desc_sorted. exact lt3_asym_doubles.
Qed.

(** C4, amended: when no scored record has NaN as its score, hit rate or
    trade count, which is so whenever every hit rate and trade count of the
    input is null or finite, every record of the ranker's output and the one
    after it are in the order of the contract: score descending, then hit
    rate with null as -1, then trade count with null as -1. *)
Theorem ranker_sorted_doubles (items : list Raw.t) :
  (Forall (fun r => finite_or_null (Raw.hitRate r)
                    /\ finite_or_null (Raw.trade r)) items ->
   Forall (fun r => key_is_number (score_record P r)) items)
  /\ (Forall (fun r => key_is_number (score_record P r)) items ->
      Sorted ranked (_score P items)
      /\ (forall (l1 l2 : list Item.t) (a b : Item.t),
             _score P items = (l1 ++ a :: b :: l2)%list -> ranked a b)).
Proof.
  split.
  - intros H. apply Forall_forall. intros r Hr. rewrite Forall_forall in H.
    destruct (H r Hr). now apply finite_key_is_number.
  - intros H. split; [now apply _score_Sorted_doubles|].
    intros l1 l2 a b E. apply (Sorted_adjacent ranked l1 l2).
    rewrite <- E. now apply _score_Sorted_doubles.
Qed.

(** A record without hit rate and with an infinite trade count scores NaN:
    zero times infinity. *)
Lemma raw_inf_score : Item.score (score_record P raw_inf) = NaN.
Proof.
  unfold score_record, raw_inf. cbn [Item.score Raw.hitRate Raw.trade or_default].
  unfold truthy, max. simpl. rewrite log1p_inf. simpl.
  unfold scaled_inf. decide_reals. reflexivity.
Qed.

Lemma _score_two (r1 r2 : Raw.t) :
  _score P [r1; r2] = [score_record P r1; score_record P r2]
  \/ _score P [r1; r2] = [score_record P r2; score_record P r1].
Proof.
  unfold _score.
  pose proof (sort_perm P _ _ sort_key lt3 (map (score_record P) [r1; r2])) as Hp.
  apply Permutation_sym, Permutation_length_2_inv in Hp.
  destruct Hp as [-> | ->]; auto.
Qed.


Lemma ranked_nan_left (a b : Item.t) : Item.score a = NaN -> ~ ranked a b.
Proof. intros E [H _]. unfold geb in H. now rewrite E, fl_leb_nan_r in H. Qed.

Lemma ranked_nan_right (a b : Item.t) : Item.score b = NaN -> ~ ranked a b.
Proof. intros E [H _]. unfold geb in H. now rewrite E, fl_leb_nan_l in H. Qed.

(** With a NaN score in a list of two, the output is out of order whichever
    way the sort leaves it. *)
Lemma raw_inf_unsorted :
  exists a b, _score P [raw_inf; raw_ten] = [a; b] /\ ~ ranked a b.
Proof.
  destruct (_score_two raw_inf raw_ten) as [E|E]; rewrite E.
  - do 2 eexists. split; [reflexivity|]. apply ranked_nan_left, raw_inf_score.
  - do 2 eexists. split; [reflexivity|]. apply ranked_nan_right, raw_inf_score.
Qed.


(** ** The weights on doubles *)


Lemma rnd_nonneg_double (r : R) : 0 <= r -> nonneg_double P (rnd P r).
Proof.
  intros Hr. pose proof (rnd_nonneg r Hr) as L.
  destruct (rnd_cases r) as [[c E]|[E|E]]; rewrite E in *.
  - right. exists c. apply fl_leb_Fin in L. split; [reflexivity|].
    split; [exact L|exact (rnd_idem P _ _ E)].
  - now left.
  - discriminate.
Qed.

Lemma add_nonneg_double (x y : float) :
  nonneg_double P x -> nonneg_double P y -> nonneg_double P (add P x y).
Proof.
  intros [->|[a [-> [Ha _]]]] [->|[b [-> [Hb _]]]]; simpl;
    try (now left).
  apply rnd_nonneg_double. lra.
Qed.

(** The power of the weight: the base is a double that is not negative,
    plus infinity or NaN. *)
Lemma pow_base_cases (h p : float) :
  pow P (max h (Fin 0)) (Fin (exponent P)) = Ok p ->
  (h = NaN /\ p = NaN) \/ (h <> NaN /\ nonneg_double P p).
Proof.
  destruct (max_zero_cases h) as [[m [E Hm]]|[[-> E]|[-> E]]]; rewrite E.
  - assert (Hn : h <> NaN)
      by (intros ->; unfold max in E; simpl in E; discriminate).
    destruct Hm as [Hm| <-].
    + destruct (pow_pos P m Hm) as [R|[q [Eq [Hq Rq]]]]; rewrite ?R, ?Eq.
      * discriminate.
      * intros H. injection H as <-. right. split; [exact Hn|].
        right. now exists q.
    + rewrite pow_0. intros H. injection H as <-. right. split; [exact Hn|].
      right. exists 0. split; [reflexivity|]. split; [lra|apply rnd_0].
  - rewrite pow_inf. intros H. injection H as <-. right.
    split; [discriminate|now left].
  - rewrite pow_nan. intros H. injection H as <-. now left.
Qed.

(** A weight is NaN, plus infinity or a double that is not negative; it is
    not NaN when the hit rate is not NaN and the trade count is neither plus
    infinity nor NaN. *)
Lemma vote_weight_cases (it : Item.t) (w : float) :
  vote_weight P it = Ok w ->
  (w = NaN \/ nonneg_double P w)
  /\ (Item.hit_rate it <> Some NaN -> Item.trade it <> Some PInf ->
      Item.trade it <> Some NaN -> nonneg_double P w).
Proof.
  unfold vote_weight.
  destruct (pow P (max (or_default (Item.hit_rate it) (Fin 0)) (Fin 0))
              (Fin (exponent P))) as [p|e] eqn:Ep; cbn [bind]; [|discriminate].
  intros H. apply Ok_inj in H. subst w.
  apply pow_base_cases in Ep.
  destruct (factor_cases (or_default (Item.trade it) (Fin 0)))
    as [[f [-> [Hf [Rf _]]]]|[[Et ->]|[Et ->]]].
  - destruct Ep as [[Eh ->]|[Hn [->|[c [-> [Hc Rc]]]]]].
    + split; [now left|]. intros Hh _ _. exfalso. revert Eh.
      apply or_default_not; [discriminate|exact Hh].
    + assert (N : nonneg_double P (mul P PInf (Fin f))).
      { simpl. unfold scaled_inf. decide_reals. now left. }
      split; [now right|trivial].
    + assert (N : nonneg_double P (mul P (Fin c) (Fin f))).
      { simpl. apply rnd_nonneg_double. nra. }
      split; [now right|trivial].
  - split.
    + destruct Ep as [[_ ->]|[_ [->|[c [-> [Hc _]]]]]]; simpl.
      * now left.
      * right. now left.
      * unfold scaled_inf.
        destruct (Req_dec_T c 0); [now left|].
        destruct (Rlt_dec 0 c); [right; now left|lra].
    + intros _ Hinf _. exfalso. revert Et.
      apply or_default_not; [discriminate|exact Hinf].
  - split.
    + left. now destruct p.
    + intros _ _ Hnan. exfalso. revert Et.
      apply or_default_not; [discriminate|exact Hnan].
Qed.

Lemma cast_votes_In_doubles (items : list Item.t) (votes : list Vote.t) :
  cast_votes P items = Ok votes ->
  forall v, In v votes ->
  exists it, In it items
    /\ vote (Str.or_empty (Item.plan it)) = Some (Vote.side v)
    /\ vote_weight P it = Ok (Vote.weight v)
    /\ Vote.name v = Item.name it /\ Vote.plan v = Item.plan it.
Proof.
  revert votes. induction items as [|it items IH]; simpl; intros votes E v Hv.
  - injection E as <-. destruct Hv.
  - destruct (vote (Str.or_empty (Item.plan it))) as [s|] eqn:Es.
    + destruct (vote_weight P it) as [w|e] eqn:Ew; simpl in E; [|discriminate].
      destruct (cast_votes P items) as [vs|e] eqn:Ec; simpl in E; [|discriminate].
      injection E as <-. destruct Hv as [<-|Hv].
      * exists it. simpl. auto.
      * destruct (IH vs eq_refl v Hv) as [it' [Hin Hrest]]. exists it'. auto.
    + destruct (IH votes E v Hv) as [it' [Hin Hrest]]. exists it'. auto.
Qed.




(** ** The decision on doubles *)

Lemma fold_add_cases (ws : list float) (acc : float) :
  Forall (fun w => w = NaN \/ nonneg_double P w) ws ->
  acc = NaN \/ nonneg_double P acc ->
  fold_left (add P) ws acc = NaN \/ nonneg_double P (fold_left (add P) ws acc).
Proof.
  intros H. revert acc. induction H as [|w ws Hw _ IH]; intros acc Ha; [exact Ha|].
  simpl. apply IH.
  destruct Ha as [->|Ha]; [now left|].
  destruct Hw as [->|Hw]; [left; now destruct acc|].
  right. now apply add_nonneg_double.
Qed.

(** A side score is NaN, plus infinity or a double that is not negative. *)
Lemma side_score_cases (items : list Item.t) (votes : list Vote.t) (s : Side) :
  cast_votes P items = Ok votes ->
  side_score P s votes = NaN \/ nonneg_double P (side_score P s votes).
Proof.
  intros E. unfold side_score, sum. apply fold_add_cases.
  - apply Forall_map. apply Forall_forall. intros v Hv.
    apply filter_In in Hv. destruct Hv as [Hv _].
    destruct (cast_votes_In_doubles _ _ E v Hv) as [it [_ [_ [Ew _]]]].
    exact (proj1 (vote_weight_cases _ _ Ew)).
  - right. right. exists 0. split; [reflexivity|]. split; [lra|apply rnd_0].
Qed.

Lemma add_finite (x y : float) (t : R) :
  add P x y = Fin t -> exists a b, x = Fin a /\ y = Fin b /\ rnd P (a + b) = Fin t.
Proof. destruct x, y; simpl; try discriminate. eauto. Qed.

(** The division of the confidence never raises: a total that is not at
    most 0 is not a zero. *)
Lemma div_returns (x y : float) :
  leb y (Fin 0) = false -> exists c, div P x y = Ok c.
Proof.
  destruct y as [b| | |]; intros H.
  - unfold div. destruct (Req_dec_T b 0) as [->|N].
    + exfalso. revert H. unfold leb. fl_cases.
    + destruct x; eauto.
  - destruct x; simpl; eauto.
  - destruct x; simpl; eauto.
  - destruct x; simpl; eauto.
Qed.

(** The three ways [analyze_big_small] ends once the votes are cast. *)
Lemma analyze_cases_doubles (items : list Item.t) (votes : list Vote.t) :
  cast_votes P items = Ok votes ->
  let big := side_score P Big votes in
  let small := side_score P Small votes in
  let total := add P big small in
  (leb total (Fin 0) = true /\ analyze_big_small P items = Ok no_signal)
  \/ (leb total (Fin 0) = false /\ geb big small = true
      /\ exists c, div P big total = Ok c
           /\ analyze_big_small P items
              = Ok {| Decision.decision := Some Big;
                      Decision.confidence := c;
                      Decision.reasons :=
                        firstn 5 (sort P _ _ Vote.weight ltb votes) |})
  \/ (leb total (Fin 0) = false /\ geb big small = false
      /\ exists c, div P small total = Ok c
           /\ analyze_big_small P items
              = Ok {| Decision.decision := Some Small;
                      Decision.confidence := c;
                      Decision.reasons :=
                        firstn 5 (sort P _ _ Vote.weight ltb votes) |}).
Proof.
  intros E. cbv zeta. destruct items as [|it items].
  - simpl in E. apply Ok_inj in E. subst votes. left.
    unfold side_score, sum. simpl. rewrite Rplus_0_r, rnd_0.
    split; [|reflexivity]. apply fl_leb_Fin. lra.
  - unfold analyze_big_small. rewrite E. cbn [bind].
    destruct (leb (add P (side_score P Big votes) (side_score P Small votes)) (Fin 0))
      eqn:L; [now left|right].
    destruct (geb (side_score P Big votes) (side_score P Small votes)) eqn:G;
      [left|right]; (split; [reflexivity|]); (split; [reflexivity|]).
    + destruct (div_returns (side_score P Big votes) _ L) as [c Ec].
      exists c. now rewrite Ec.
    + destruct (div_returns (side_score P Small votes) _ L) as [c Ec].
      exists c. now rewrite Ec.
Qed.

(** The share of the winning side: with doubles [w >= l >= 0] and a total
    [T > 0] that did not overflow, [w / T] rounds to a double between one
    half and one. *)
Lemma share_doubles (w l T : R) :
  rnd P w = Fin w -> 0 <= l -> l <= w -> rnd P (w + l) = Fin T -> 0 < T ->
  exists c, rnd P (w / T) = Fin c /\ 1 / 2 <= c <= 1.
Proof.
  intros Rw Hl Hlw ET HT.
  assert (H1 : w <= T).
  { pose proof (rnd_lower w (w + l) Rw ltac:(lra)) as L.
    rewrite ET in L. now apply fl_leb_Fin. }
  assert (H2 : T <= 2 * w).
  { destruct (rnd_cases (2 * w)) as [[d E]|[E|E]].
    - pose proof (rnd_double P w Rw d E) as ->.
      pose proof (rnd_mono P (w + l) (2 * w) ltac:(lra)) as L.
      rewrite ET, E in L. now apply fl_leb_Fin.
    - destruct (Rle_dec T (2 * w)) as [Y|N]; [exact Y|exfalso].
      pose proof (rnd_mono P (2 * w) T ltac:(lra)) as L.
      rewrite E, (rnd_idem P _ _ ET) in L. discriminate.
    - pose proof (rnd_mono P 0 (2 * w) ltac:(lra)) as L.
      rewrite rnd_0, E in L. discriminate. }
  apply rnd_between; [apply rnd_half|apply rnd_1|].
  apply share_bounds; lra.
Qed.

Lemma geb_Fin (a b : R) : geb (Fin a) (Fin b) = true <-> b <= a.
Proof. unfold geb. apply fl_leb_Fin. Qed.

Lemma geb_false_Fin (a b : R) : geb (Fin a) (Fin b) = false -> a < b.
Proof.
  intros H. destruct (Rlt_dec a b) as [Y|N]; [exact Y|].
  assert (G : geb (Fin a) (Fin b) = true) by (apply geb_Fin; lra). congruence.
Qed.

(** The confidence, once the total is a positive double. *)
Lemma confidence_doubles (items : list Item.t) (votes : list Vote.t) (T : R) :
  cast_votes P items = Ok votes ->
  let big := side_score P Big votes in
  let small := side_score P Small votes in
  add P big small = Fin T -> 0 < T ->
  exists d c, analyze_big_small P items = Ok d
    /\ Decision.decision d = Some (if geb big small then Big else Small)
    /\ Decision.confidence d = Fin c /\ 1 / 2 <= c <= 1
    /\ (eqb big small = true ->
        Decision.decision d = Some Big /\ c = 1 / 2).
Proof.
  intros E. cbv zeta. intros ET HT.
  destruct (add_finite _ _ _ ET) as [b [s [Eb [Es Er]]]].
  assert (Nb : nonneg_double P (Fin b)).
  { destruct (side_score_cases _ _ Big E) as [N|N]; rewrite Eb in N;
      [discriminate|exact N]. }
  assert (Ns : nonneg_double P (Fin s)).
  { destruct (side_score_cases _ _ Small E) as [N|N]; rewrite Es in N;
      [discriminate|exact N]. }
  destruct Nb as [Nb|[b' [Hb' [Hb Rb]]]]; [discriminate|].
  apply (f_equal (fun x => match x with Fin v => v | _ => 0 end)) in Hb'.
  simpl in Hb'. subst b'.
  destruct Ns as [Ns|[s' [Hs' [Hs Rs]]]]; [discriminate|].
  apply (f_equal (fun x => match x with Fin v => v | _ => 0 end)) in Hs'.
  simpl in Hs'. subst s'.
  assert (L : leb (Fin T) (Fin 0) = false).
  { destruct (leb (Fin T) (Fin 0)) eqn:L; [|reflexivity].
    apply fl_leb_Fin in L. lra. }
  assert (NZ : T <> 0) by lra.
  destruct (analyze_cases_doubles _ _ E)
    as [[L' _]|[[_ [G [c [Ec Ea]]]]|[_ [G [c [Ec Ea]]]]]];
    cbv zeta in *; rewrite ?ET, ?Eb, ?Es in *.
  - congruence.
  - rewrite G. apply geb_Fin in G.
    destruct (share_doubles b s T Rb Hs G Er HT) as [c' [Ec' Hc']].
    unfold div in Ec. destruct (Req_dec_T T 0); [contradiction|].
    apply Ok_inj in Ec. subst c.
    eexists. exists c'. split; [exact Ea|]. cbn [Decision.decision Decision.confidence].
    split; [reflexivity|]. split; [exact Ec'|]. split; [exact Hc'|].
    intros Q. apply fl_eqb_Fin in Q. subst s. split; [reflexivity|].
    assert (TT : T = 2 * b).
    { apply (rnd_double P b Rb). now replace (2 * b) with (b + b) by lra. }
    subst T. replace (b / (2 * b)) with (1 / 2) in Ec' by (field; lra).
    rewrite rnd_half in Ec'. now apply (f_equal (fun x => match x with Fin v => v | _ => 0 end)) in Ec'.
  - rewrite G. apply geb_false_Fin in G.
    replace (b + s) with (s + b) in Er by lra.
    destruct (share_doubles s b T Rs Hb ltac:(lra) Er HT) as [c' [Ec' Hc']].
    unfold div in Ec. destruct (Req_dec_T T 0); [contradiction|].
    apply Ok_inj in Ec. subst c.
    eexists. exists c'. split; [exact Ea|]. cbn [Decision.decision Decision.confidence].
    split; [reflexivity|]. split; [exact Ec'|]. split; [exact Hc'|].
    intros Q. apply fl_eqb_Fin in Q. lra.
Qed.

Lemma ltb_zero_leb (t : float) : ltb (Fin 0) t = true -> leb t (Fin 0) = false.
Proof. destruct t; unfold leb; fl_cases. Qed.

(** C2, amended: when the votes are cast without the power raising and the
    two side scores sum to more than 0, a result is returned; the decision is
    Big if the Big score is at least the Small score and Small otherwise, and
    the confidence is the winning score divided by the sum.  When the sum is
    finite the confidence lies in (0, 1], and on a tie the decision is Big
    with confidence exactly one half.  (An infinite sum gives confidence 0 or
    NaN.) *)
Theorem decides_doubles (items : list Item.t) (votes : list Vote.t) :
  cast_votes P items = Ok votes ->
  let big := side_score P Big votes in
  let small := side_score P Small votes in
  let total := add P big small in
  ltb (Fin 0) total = true ->
  exists d, analyze_big_small P items = Ok d
    /\ Decision.decision d = Some (if geb big small then Big else Small)
    /\ div P (if geb big small then big else small) total
       = Ok (Decision.confidence d)
    /\ (finite total ->
        ltb (Fin 0) (Decision.confidence d) = true
        /\ leb (Decision.confidence d) (Fin 1) = true)
    /\ (finite total -> eqb big small = true ->
        Decision.decision d = Some Big
        /\ Decision.confidence d = Fin (1 / 2)).
Proof.
  intros E. cbv zeta. intros Hpos.
  pose proof (ltb_zero_leb _ Hpos) as L.
  assert (F : forall d, analyze_big_small P items = Ok d ->
              (finite (add P (side_score P Big votes) (side_score P Small votes)) ->
               ltb (Fin 0) (Decision.confidence d) = true
               /\ leb (Decision.confidence d) (Fin 1) = true)
              /\ (finite (add P (side_score P Big votes) (side_score P Small votes)) ->
                  eqb (side_score P Big votes) (side_score P Small votes) = true ->
                  Decision.decision d = Some Big
                  /\ Decision.confidence d = Fin (1 / 2))).
  { intros d Ed.
    assert (G : forall T, add P (side_score P Big votes) (side_score P Small votes) = Fin T ->
                exists c, Decision.confidence d = Fin c /\ 1 / 2 <= c <= 1
                  /\ (eqb (side_score P Big votes) (side_score P Small votes) = true ->
                      Decision.decision d = Some Big /\ c = 1 / 2)).
    { intros T ET.
      assert (HT : 0 < T) by (rewrite ET in Hpos; now apply fl_ltb_Fin in Hpos).
      destruct (confidence_doubles _ _ T E ET HT) as [d' [c [Ed' [_ [Ec [Hc Ht]]]]]].
      rewrite Ed in Ed'. apply Ok_inj in Ed'. subst d'. now exists c. }
    split.
    - intros [T ET]. destruct (G T ET) as [c [-> [Hc _]]].
      split; [apply fl_ltb_Fin|apply fl_leb_Fin]; lra.
    - intros [T ET] Q. destruct (G T ET) as [c [-> [_ Ht]]].
      destruct (Ht Q) as [D ->]. auto. }
  destruct (analyze_cases_doubles _ _ E)
    as [[L' _]|[[_ [G [c [Ec Ea]]]]|[_ [G [c [Ec Ea]]]]]]; cbv zeta in *.
  - congruence.
  - eexists. split; [exact Ea|]. rewrite G. cbn [Decision.decision Decision.confidence].
    split; [reflexivity|]. split; [exact Ec|]. exact (F _ Ea).
  - eexists. split; [exact Ea|]. rewrite G. cbn [Decision.decision Decision.confidence].
    split; [reflexivity|]. split; [exact Ec|]. exact (F _ Ea).
Qed.

(** C10, amended: whenever a returned decision is not null and the sum of
    the two side scores is finite, the confidence is at least one half.  (An
    infinite or NaN sum gives confidence 0 or NaN.) *)
Theorem confidence_half_doubles (items : list Item.t) (votes : list Vote.t)
  (d : Decision.t) :
  cast_votes P items = Ok votes ->
  analyze_big_small P items = Ok d ->
  Decision.decision d <> None ->
  finite (add P (side_score P Big votes) (side_score P Small votes)) ->
  geb (Decision.confidence d) (Fin (1 / 2)) = true.
Proof.
  intros E Ed Hd [T ET].
  assert (HT : 0 < T).
  { destruct (analyze_cases_doubles _ _ E) as [[_ Ea]|[[L _]|[L _]]];
      cbv zeta in *.
    - rewrite Ed in Ea. apply Ok_inj in Ea. subst d. now contradiction Hd.
    - rewrite ET in L. destruct (Rlt_dec 0 T) as [Y|N]; [exact Y|].
      assert (L' : leb (Fin T) (Fin 0) = true) by (apply fl_leb_Fin; lra).
      congruence.
    - rewrite ET in L. destruct (Rlt_dec 0 T) as [Y|N]; [exact Y|].
      assert (L' : leb (Fin T) (Fin 0) = true) by (apply fl_leb_Fin; lra).
      congruence. }
  destruct (confidence_doubles _ _ T E ET HT) as [d' [c [Ed' [_ [Ec [Hc _]]]]]].
  rewrite Ed in Ed'. apply Ok_inj in Ed'. subst d'.
  rewrite Ec. apply geb_Fin. lra.
Qed.

(** A record with hit rate 1 and an infinite trade count weighs plus
    infinity, and alone it gives the decision Big with confidence NaN:
    infinity divided by infinity. *)
Lemma item_inf_weight : vote_weight P item_inf = Ok PInf.
Proof.
  unfold vote_weight, item_inf. cbn [Item.hit_rate Item.trade or_default].
  unfold truthy, max. simpl. decide_reals. simpl. decide_reals.
  rewrite pow_1, log1p_inf. simpl. unfold scaled_inf. decide_reals. reflexivity.
Qed.

Lemma item_inf_votes :
  cast_votes P [item_inf]
  = Ok [ {| Vote.side := Big; Vote.weight := PInf;
            Vote.name := Item.name item_inf; Vote.plan := Item.plan item_inf |} ].
Proof.
  cbn [cast_votes]. replace (vote (Str.or_empty (Item.plan item_inf))) with (Some Big)
    by reflexivity.
  now rewrite item_inf_weight.
Qed.

Lemma item_inf_result :
  exists d, analyze_big_small P [item_inf] = Ok d
    /\ Decision.decision d = Some Big /\ Decision.confidence d = NaN.
Proof.
  destruct (analyze_cases_doubles _ _ item_inf_votes)
    as [[L _]|[[_ [_ [c [Ec Ea]]]]|[_ [G _]]]]; cbv zeta in *.
  - discriminate L.
  - exists {| Decision.decision := Some Big; Decision.confidence := c;
              Decision.reasons := firstn 5 (sort P _ _ Vote.weight ltb
                [ {| Vote.side := Big; Vote.weight := PInf;
                     Vote.name := Item.name item_inf;
                     Vote.plan := Item.plan item_inf |} ]) |}.
    split; [exact Ea|]. split; [reflexivity|].
    simpl in Ec. apply Ok_inj in Ec. now subst c.
  - discriminate G.
Qed.


(** ** Further properties on doubles *)

Lemma fl_ltb_between (x y z : float) :
  is_number y -> ltb x z = true -> ltb x y = true \/ ltb y z = true.
Proof. unfold is_number. destruct x, y, z; fl_cases. Qed.

Lemma fl_geb_trans (x y z : float) :
  geb x y = true -> geb y z = true -> geb x z = true.
Proof. unfold geb. intros H1 H2. exact (fl_leb_trans _ _ _ H2 H1). Qed.

Lemma fl_geb_refl (x : float) : is_number x -> geb x x = true.
Proof. unfold is_number, geb, leb. destruct x; fl_cases. Qed.

Lemma scored_keys (items : list Raw.t) :
  Forall (fun r => key_is_number (score_record P r)) items ->
  Forall key_is_number (map (score_record P) items).
Proof.
  intros H. apply Forall_forall. intros x Hx. apply in_map_iff in Hx.
  destruct Hx as [r [<- Hr]]. rewrite Forall_forall in H. now apply H.
Qed.

(** Without NaN keys the whole sorted list, before the cut, is in
    descending score order, every record against every later one. *)
Lemma sorted_scores_doubles (items : list Raw.t) :
  Forall (fun r => key_is_number (score_record P r)) items ->
  StronglySorted outscores (sort P _ _ sort_key lt3 (map (score_record P) items)).
Proof.
  intros H. pose proof (scored_keys _ H) as K.
  rewrite (sort_consistent P _ _ _ _ _ (consistent_keys _ K)).
  apply Sorted_StronglySorted.
  - intros a b c. apply fl_geb_trans.
  - apply (Sorted_weaken key_is_number (not_below sort_key lt3)).
    + intros a b Ha Hb Hn. unfold key_is_number, not_below, sort_key in *.
      destruct Ha as [A1 [A2 A3]], Hb as [B1 [B2 B3]].
      exact (proj1 (lt3_false_doubles _ _ _ _ _ _ A1 A2 A3 B1 B2 B3 Hn)).
    + apply Forall_forall. intros x Hx.
      apply (Permutation_in _ (sort_desc_perm sort_key lt3 _)) in Hx.
      rewrite Forall_forall in K. now apply K.
    + apply sort_desc_sorted. exact lt3_asym_doubles.
Qed.

Lemma _score_dropped_doubles (items : list Raw.t) :
  (_score P items ++ dropped P items)%list
  = sort P _ _ sort_key lt3 (map (score_record P) items).
Proof. unfold _score, dropped. apply firstn_skipn. Qed.

(** X1: when no scored record has NaN in its sort key, [scrape_plans]
    reports no best record exactly when nothing was extracted; otherwise the
    best record is the first item, comes from an extracted record, and no
    extracted record scores higher, the ones cut from the list included.  The
    list has at most 20 items. *)
Theorem scrape_plans_best_doubles (evaluated : option (list Raw.t)) :
  let data := scrape_plans P evaluated in
  let raw := or_nil evaluated in
  Forall (fun r => key_is_number (score_record P r)) raw ->
  (Plans.best data = None <-> raw = [])
  /\ (List.length (Plans.items data) <= 20)%nat
  /\ (forall b : Item.t,
         Plans.best data = Some b ->
         (exists rest, Plans.items data = b :: rest)
         /\ (exists r, In r raw /\ b = score_record P r)
         /\ (forall r, In r raw -> outscores b (score_record P r))).
Proof.
  cbv zeta. unfold scrape_plans. cbn [Plans.best Plans.items].
  set (raw := or_nil evaluated). intros K.
  assert (L : List.length (_score P raw) = Nat.min 20 (List.length raw)).
  { unfold _score. rewrite length_firstn.
    now rewrite (Permutation_length (sort_perm P _ _ _ _ _)), length_map. }
  split; [|split].
  - destruct (_score P raw) eqn:E; split; try congruence.
    + intros _. destruct raw; [reflexivity|simpl in L; lia].
    + intros Z. rewrite Z in L. simpl in L. discriminate.
  - rewrite L. lia.
  - intros b Hb.
    destruct (_score P raw) as [|x rest] eqn:E; [discriminate|].
    injection Hb as ->.
    split; [now exists rest|].
    assert (Hin : In b (_score P raw)) by (rewrite E; now left).
    split; [exact (_score_In_doubles _ _ Hin)|].
    intros r Hr.
    pose proof (sorted_scores_doubles raw K) as S.
    rewrite <- _score_dropped_doubles, E in S. simpl in S.
    apply StronglySorted_inv in S. destruct S as [_ Hall].
    assert (Hc : In (score_record P r)
                    (sort P _ _ sort_key lt3 (map (score_record P) raw))).
    { apply (Permutation_in _ (Permutation_sym (sort_perm P _ _ _ _ _))).
      now apply in_map. }
    rewrite <- _score_dropped_doubles, E in Hc. simpl in Hc.
    destruct Hc as [Hc|Hc].
    + rewrite <- Hc. apply fl_geb_refl. rewrite Forall_forall in K.
      pose proof (K r Hr) as Kr. rewrite <- Hc in Kr.
      unfold key_is_number, sort_key in Kr. exact (proj1 Kr).
    + rewrite Forall_forall in Hall. now apply Hall.
Qed.

(** X2: when no scored record has NaN in its sort key, the cut of [_score]
    drops the lowest scores: the returned and the dropped records together
    are the scored candidates, only candidates beyond the twentieth are
    dropped, and every returned record scores at least as high as every
    dropped one. *)
Theorem ranker_keeps_highest_doubles (items : list Raw.t) :
  Forall (fun r => key_is_number (score_record P r)) items ->
  Permutation (_score P items ++ dropped P items)%list
              (map (score_record P) items)
  /\ List.length (dropped P items) = (List.length items - 20)%nat
  /\ (forall x y : Item.t,
         In x (_score P items) -> In y (dropped P items) -> outscores x y).
Proof.
  intros K. split; [|split].
  - rewrite _score_dropped_doubles. apply sort_perm.
  - unfold dropped. rewrite length_skipn.
    now rewrite (Permutation_length (sort_perm P _ _ _ _ _)), length_map.
  - intros x y Hx Hy.
    pose proof (sorted_scores_doubles items K) as S.
    rewrite <- _score_dropped_doubles in S.
    exact (StronglySorted_app_inv _ _ _ S x y Hx Hy).
Qed.

Lemma consistent_weights (votes : list Vote.t) :
  Forall (fun v => is_number (Vote.weight v)) votes ->
  consistent Vote.weight ltb votes.
Proof.
  intros H. rewrite Forall_forall in H. split.
  - intros x y _ _. apply fl_ltb_asym.
  - intros x y z _ Hy _. apply fl_ltb_between. now apply H.
Qed.

Lemma sorted_weights_doubles (votes : list Vote.t) :
  Forall (fun v => is_number (Vote.weight v)) votes ->
  StronglySorted outweighs (sort P _ _ Vote.weight ltb votes).
Proof.
  intros H. rewrite (sort_consistent P _ _ _ _ _ (consistent_weights _ H)).
  apply Sorted_StronglySorted.
  - intros a b c. apply fl_geb_trans.
  - apply (Sorted_weaken (fun v => is_number (Vote.weight v))
             (not_below Vote.weight ltb)).
    + intros a b Ha Hb Hn. now apply fl_not_ltb.
    + apply Forall_forall. intros x Hx.
      apply (Permutation_in _ (sort_desc_perm Vote.weight ltb _)) in Hx.
      rewrite Forall_forall in H. now apply H.
    + apply sort_desc_sorted. exact fl_ltb_asym.
Qed.

Lemma side_score_nil_doubles (s : Side) : side_score P s [] = Fin 0.
Proof. reflexivity. Qed.

Lemma add_zero_zero : add P (Fin 0) (Fin 0) = Fin 0.
Proof. simpl. now rewrite Rplus_0_r, rnd_0. Qed.

(** How a returned result lists its reasons. *)
Lemma reasons_cases_doubles (items : list Item.t) (votes : list Vote.t)
  (d : Decision.t) :
  cast_votes P items = Ok votes -> analyze_big_small P items = Ok d ->
  (Decision.decision d = None /\ Decision.reasons d = [])
  \/ (Decision.decision d <> None /\ votes <> []
      /\ Decision.reasons d = firstn 5 (sort P _ _ Vote.weight ltb votes)).
Proof.
  intros E Ed.
  assert (V : leb (add P (side_score P Big votes) (side_score P Small votes)) (Fin 0)
              = false -> votes <> []).
  { intros L Z. subst votes. rewrite !side_score_nil_doubles, add_zero_zero in L.
    unfold leb in L. revert L. fl_cases. }
  destruct (analyze_cases_doubles _ _ E)
    as [[_ Ea]|[[L [_ [c [_ Ea]]]]|[L [_ [c [_ Ea]]]]]]; cbv zeta in *;
    rewrite Ed in Ea; apply Ok_inj in Ea; subst d.
  - now left.
  - right. split; [discriminate|]. split; [now apply V|reflexivity].
  - right. split; [discriminate|]. split; [now apply V|reflexivity].
Qed.

(** X11: the reasons of a returned result.  With a null decision there are
    none; otherwise there are min(5, number of votes) of them and at least
    one, and they are votes that were cast.  When no weight is NaN they are
    in descending weight order and the first one weighs at least as much as
    every vote cast. *)
Theorem reasons_top_doubles (items : list Item.t) (votes : list Vote.t)
  (d : Decision.t) :
  cast_votes P items = Ok votes ->
  analyze_big_small P items = Ok d ->
  (Decision.decision d = None -> Decision.reasons d = [])
  /\ (Decision.decision d <> None ->
      List.length (Decision.reasons d) = Nat.min 5 (List.length votes)
      /\ (1 <= List.length (Decision.reasons d))%nat)
  /\ (forall v, In v (Decision.reasons d) -> In v votes)
  /\ (Forall (fun v => is_number (Vote.weight v)) votes ->
      StronglySorted outweighs (Decision.reasons d)
      /\ (forall v rest w,
             Decision.reasons d = v :: rest -> In w votes -> outweighs v w)).
Proof.
  intros E Ed.
  destruct (reasons_cases_doubles _ _ _ E Ed) as [[D R]|[D [V R]]]; rewrite R.
  - split; [reflexivity|]. split; [congruence|]. split; [intros v []|].
    intros _. split; [constructor|discriminate].
  - split; [congruence|]. split; [|split].
    + intros _. rewrite length_firstn.
      rewrite (Permutation_length (sort_perm P _ _ _ _ _)).
      destruct votes; [contradiction|simpl; lia].
    + intros v Hv. apply firstn_In in Hv.
      exact (Permutation_in _ (sort_perm P _ _ _ _ _) Hv).
    + intros N. pose proof (sorted_weights_doubles _ N) as S.
      split; [now apply StronglySorted_firstn|].
      intros v rest w Ev Hw.
      assert (No : Forall (fun v => is_number (Vote.weight v))
                          (sort P _ _ Vote.weight ltb votes)).
      { apply Forall_forall. intros x Hx. rewrite Forall_forall in N.
        apply N. exact (Permutation_in _ (sort_perm P _ _ _ _ _) Hx). }
      apply (Permutation_in _ (Permutation_sym (sort_perm P _ _ Vote.weight ltb _)))
        in Hw.
      revert S No Hw Ev. generalize (sort P _ _ Vote.weight ltb votes).
      intros out S No Hw Ev. destruct out as [|x tl]; [destruct Hw|].
      cbn [firstn] in Ev. injection Ev as -> _.
      apply StronglySorted_inv in S. destruct S as [_ Hall].
      destruct Hw as [<-|Hw].
      * apply fl_geb_refl. exact (Forall_inv No).
      * rewrite Forall_forall in Hall. now apply Hall.
Qed.

Lemma side_score_other_doubles (s : Side) (votes : list Vote.t) :
  Forall (fun v => Vote.side v = s) votes ->
  side_score P (match s with Big => Small | Small => Big end) votes = Fin 0.
Proof.
  intros H. unfold side_score.
  replace (filter _ votes) with (@nil Vote.t); [reflexivity|].
  induction H as [|v votes Hv _ IH]; [reflexivity|].
  cbn [filter]. rewrite Hv. destruct s; exact IH.
Qed.

(** X12: a unanimous vote has confidence 1: when every vote cast is for one
    side and the side scores sum to a finite total above 0, that side is the
    decision and the confidence is exactly 1. *)
Theorem unanimous_doubles (items : list Item.t) (votes : list Vote.t) (s : Side) :
  cast_votes P items = Ok votes ->
  Forall (fun v => Vote.side v = s) votes ->
  let total := add P (side_score P Big votes) (side_score P Small votes) in
  ltb (Fin 0) total = true -> finite total ->
  exists d, analyze_big_small P items = Ok d
    /\ Decision.decision d = Some s
    /\ Decision.confidence d = Fin 1.
Proof.
  intros E Hall. cbv zeta. intros Hpos [T ET].
  pose proof (side_score_other_doubles s votes Hall) as Z.
  assert (HT : 0 < T) by (rewrite ET in Hpos; now apply fl_ltb_Fin in Hpos).
  destruct (add_finite _ _ _ ET) as [b [m [Eb [Em Er]]]].
  assert (Nb : nonneg_double P (Fin b)).
  { destruct (side_score_cases _ _ Big E) as [N|N]; rewrite Eb in N;
      [discriminate|exact N]. }
  assert (Nm : nonneg_double P (Fin m)).
  { destruct (side_score_cases _ _ Small E) as [N|N]; rewrite Em in N;
      [discriminate|exact N]. }
  assert (One : forall x, 0 < x -> x / x = 1) by (intros x Hx; field; lra).
  destruct (analyze_cases_doubles _ _ E)
    as [[L _]|[[_ [G [c [Ec Ea]]]]|[_ [G [c [Ec Ea]]]]]];
    cbv zeta in *; rewrite ?ET, ?Eb, ?Em in *.
  - apply fl_leb_Fin in L. lra.
  - apply geb_Fin in G. destruct s.
    + rewrite Em in Z. apply (f_equal (fun x => match x with Fin v => v | _ => 1 end)) in Z.
      simpl in Z. subst m. rewrite Rplus_0_r in Er.
      destruct Nb as [Nb|[b' [Hb' [_ Rb]]]]; [discriminate|].
      apply (f_equal (fun x => match x with Fin v => v | _ => 0 end)) in Hb'.
      simpl in Hb'. subst b'. rewrite Rb in Er.
      apply (f_equal (fun x => match x with Fin v => v | _ => 0 end)) in Er.
      simpl in Er. subst T.
      unfold div in Ec. destruct (Req_dec_T b 0); [lra|].
      rewrite (One b HT), rnd_1 in Ec. apply Ok_inj in Ec. subst c.
      eexists. split; [exact Ea|]. split; reflexivity.
    + rewrite Eb in Z. apply (f_equal (fun x => match x with Fin v => v | _ => 1 end)) in Z.
      simpl in Z. subst b. rewrite Rplus_0_l in Er.
      destruct Nm as [Nm|[m' [Hm' [Hm Rm]]]]; [discriminate|].
      apply (f_equal (fun x => match x with Fin v => v | _ => 0 end)) in Hm'.
      simpl in Hm'. subst m'. rewrite Rm in Er.
      apply (f_equal (fun x => match x with Fin v => v | _ => 0 end)) in Er.
      simpl in Er. subst T. lra.
  - apply geb_false_Fin in G. destruct s.
    + rewrite Em in Z. apply (f_equal (fun x => match x with Fin v => v | _ => 1 end)) in Z.
      simpl in Z. subst m.
      destruct Nb as [Nb|[b' [Hb' [Hb _]]]]; [discriminate|].
      apply (f_equal (fun x => match x with Fin v => v | _ => 0 end)) in Hb'.
      simpl in Hb'. subst b'. lra.
    + rewrite Eb in Z. apply (f_equal (fun x => match x with Fin v => v | _ => 1 end)) in Z.
      simpl in Z. subst b. rewrite Rplus_0_l in Er.
      destruct Nm as [Nm|[m' [Hm' [_ Rm]]]]; [discriminate|].
      apply (f_equal (fun x => match x with Fin v => v | _ => 0 end)) in Hm'.
      simpl in Hm'. subst m'. rewrite Rm in Er.
      apply (f_equal (fun x => match x with Fin v => v | _ => 0 end)) in Er.
      simpl in Er. subst T.
      unfold div in Ec. destruct (Req_dec_T m 0); [lra|].
      rewrite (One m HT), rnd_1 in Ec. apply Ok_inj in Ec. subst c.
      eexists. split; [exact Ea|]. split; reflexivity.
Qed.





End Doubles.

Section DoublesExamples.

Import IEEE.

(** C4, as stated, fails: a record without hit rate and with an infinite
    trade count scores NaN, and no order of a list holding it satisfies
    [a.score >= b.score]. *)
Lemma ranker_unsorted_with_nan :
  ~ (forall (P : Platform) (items l1 l2 : list _) (a b : Item.t),
        _score P items = (l1 ++ a :: b :: l2)%list -> ranked a b).
Proof.
  intros H.
  destruct (raw_inf_unsorted exact) as [a [b [E N]]].
  exact (N (H exact [raw_inf; raw_ten] [] [] a b E)).
Qed.

Lemma ranker_sorted_doubles_witness :
  Sorted ranked (_score exact [raw_ten; raw_ten]).
Proof.
  assert (K : Forall (fun r => key_is_number (score_record exact r))
                     [raw_ten; raw_ten]).
  { apply (proj1 (ranker_sorted_doubles exact [raw_ten; raw_ten])).
    repeat constructor; simpl; now exists 10. }
  exact (proj1 (proj2 (ranker_sorted_doubles exact [raw_ten; raw_ten]) K)).
Defined.




Lemma exact_weight_one (plan : string) :
  vote_weight exact (item_one plan) = Ok (Fin (1 * (1 + ln (1 + 0)))).
Proof.
  unfold vote_weight, item_one. cbn [Item.hit_rate Item.trade or_default].
  unfold truthy, max. simpl. decide_reals. simpl. decide_reals.
  simpl. decide_reals. simpl. do 2 f_equal.
  unfold Rpower. now rewrite ln_1, Rmult_0_r, exp_0.
Qed.


Lemma exact_tie_votes :
  cast_votes exact [item_one "Big trend"; item_one "small dip"]
  = Ok [ {| Vote.side := Big; Vote.weight := Fin (1 * (1 + ln (1 + 0)));
            Vote.name := Some "Alpha"; Vote.plan := Some "Big trend" |};
         {| Vote.side := Small; Vote.weight := Fin (1 * (1 + ln (1 + 0)));
            Vote.name := Some "Alpha"; Vote.plan := Some "small dip" |} ].
Proof.
  cbn [cast_votes].
  replace (vote (Str.or_empty (Item.plan (item_one "Big trend")))) with (Some Big)
    by reflexivity.
  replace (vote (Str.or_empty (Item.plan (item_one "small dip")))) with (Some Small)
    by reflexivity.
  now rewrite !exact_weight_one.
Qed.

Lemma exact_tie_total :
  let votes := [ {| Vote.side := Big; Vote.weight := Fin (1 * (1 + ln (1 + 0)));
                    Vote.name := Some "Alpha"; Vote.plan := Some "Big trend" |};
                 {| Vote.side := Small; Vote.weight := Fin (1 * (1 + ln (1 + 0)));
                    Vote.name := Some "Alpha"; Vote.plan := Some "small dip" |} ] in
  side_score exact Big votes = Fin (0 + 1 * (1 + ln (1 + 0)))
  /\ side_score exact Small votes = Fin (0 + 1 * (1 + ln (1 + 0))).
Proof. split; reflexivity. Qed.

Lemma exact_unit_weight : 1 * (1 + ln (1 + 0)) = 1.
Proof. rewrite Rplus_0_r, ln_1. lra. Qed.

Lemma decides_doubles_witness :
  exists d, analyze_big_small exact [item_one "Big trend"; item_one "small dip"] = Ok d
    /\ Decision.decision d = Some Big
    /\ Decision.confidence d = Fin (1 / 2).
Proof.
  destruct exact_tie_total as [Eb Es]. cbv zeta in Eb, Es.
  destruct (decides_doubles exact _ _ exact_tie_votes) as [d [Ed [_ [_ [_ T]]]]].
  - cbv zeta. rewrite Eb, Es. apply fl_ltb_Fin. rewrite exact_unit_weight. lra.
  - exists d. split; [exact Ed|]. apply T.
    + cbv zeta. rewrite Eb, Es. eexists. reflexivity.
    + cbv zeta. rewrite Eb, Es. now apply fl_eqb_Fin.
Defined.

Lemma exact_tie_returns :
  exists d, analyze_big_small exact [item_one "Big trend"; item_one "small dip"] = Ok d
    /\ Decision.decision d <> None.
Proof.
  destruct exact_tie_total as [Eb Es]. cbv zeta in Eb, Es.
  assert (E : add exact (Fin (0 + 1 * (1 + ln (1 + 0)))) (Fin (0 + 1 * (1 + ln (1 + 0))))
              = Fin 2).
  { simpl. f_equal. rewrite exact_unit_weight. lra. }
  destruct (confidence_doubles exact _ _ 2 exact_tie_votes) as [d [c [Ed [Dd _]]]].
  - now rewrite Eb, Es.
  - lra.
  - exists d. split; [exact Ed|]. rewrite Dd. discriminate.
Qed.

Lemma confidence_half_doubles_witness :
  exists d, analyze_big_small exact [item_one "Big trend"; item_one "small dip"] = Ok d
    /\ geb (Decision.confidence d) (Fin (1 / 2)) = true.
Proof.
  destruct exact_tie_returns as [d [Ed Hd]].
  exists d. split; [exact Ed|].
  apply (confidence_half_doubles exact _ _ d exact_tie_votes Ed Hd).
  destruct exact_tie_total as [Eb Es]. cbv zeta in Eb, Es.
  rewrite Eb, Es. eexists. reflexivity.
Defined.

(** C2, as stated, fails: with one classifying record of hit rate 1 and an
    infinite trade count the side scores sum to plus infinity, which is more
    than 0, and the confidence is NaN, outside (0, 1]. *)
Lemma confidence_nan_at_infinity :
  ~ (forall (P : Platform) (items : list Item.t) (votes : list Vote.t)
            (d : Decision.t),
        cast_votes P items = Ok votes ->
        ltb (Fin 0) (add P (side_score P Big votes) (side_score P Small votes)) = true ->
        analyze_big_small P items = Ok d ->
        ltb (Fin 0) (Decision.confidence d) = true
        /\ leb (Decision.confidence d) (Fin 1) = true).
Proof.
  intros H.
  destruct (item_inf_result exact) as [d [Ed [_ Ec]]].
  destruct (H exact [item_inf] _ d (item_inf_votes exact) eq_refl Ed) as [G _].
  rewrite Ec in G. discriminate G.
Qed.

(** C10, as stated, fails: the same record gives a decision that is not
    null with confidence NaN, which is not at least one half. *)
Lemma confidence_below_half_at_infinity :
  ~ (forall (P : Platform) (items : list Item.t) (d : Decision.t),
        analyze_big_small P items = Ok d ->
        Decision.decision d <> None ->
        geb (Decision.confidence d) (Fin (1 / 2)) = true).
Proof.
  intros H.
  destruct (item_inf_result exact) as [d [Ed [Dd Ec]]].
  assert (G : geb (Decision.confidence d) (Fin (1 / 2)) = true)
    by (apply (H exact [item_inf] d Ed); rewrite Dd; discriminate).
  rewrite Ec in G. discriminate G.
Qed.

Lemma scrape_plans_best_doubles_witness :
  exists b, Plans.best (scrape_plans exact (Some [raw_five; raw_ten])) = Some b
    /\ outscores b (score_record exact raw_five)
    /\ outscores b (score_record exact raw_ten).
Proof.
  assert (K : Forall (fun r => key_is_number (score_record exact r))
                     (or_nil (Some [raw_five; raw_ten]))).
  { repeat constructor; apply finite_key_is_number; simpl; eauto; now eexists. }
  pose proof (scrape_plans_best_doubles exact (Some [raw_five; raw_ten])) as T.
  cbv zeta in T. destruct (T K) as [T1 [_ T3]].
  destruct (Plans.best (scrape_plans exact (Some [raw_five; raw_ten]))) as [b|] eqn:B.
  - exists b. split; [reflexivity|].
    destruct (T3 b eq_refl) as [_ [_ Hb]].
    split; apply Hb; simpl; auto.
  - destruct T1 as [T1 _]. discriminate (T1 eq_refl).
Defined.

Lemma lt3_irrefl_doubles (k : float * float * float) : lt3 k k = false.
Proof.
  destruct (lt3 k k) eqn:E; [|reflexivity].
  now rewrite (lt3_asym_doubles _ _ E) in E.
Qed.

Lemma exact_sorted_repeat (n : nat) :
  sort exact _ _ sort_key lt3 (map (score_record exact) (repeat raw_ten n))
  = repeat (score_record exact raw_ten) n.
Proof.
  rewrite map_repeat. cbn [sort exact]. apply sort_desc_repeat, lt3_irrefl_doubles.
Qed.

Lemma ranker_keeps_highest_doubles_witness :
  outscores (score_record exact raw_ten) (score_record exact raw_ten).
Proof.
  apply (proj2 (proj2 (ranker_keeps_highest_doubles exact (repeat raw_ten 21)
    ltac:(apply Forall_forall; intros r Hr; apply repeat_spec in Hr; subst r;
          apply finite_key_is_number; simpl; eauto; now eexists)))).
  - unfold _score. rewrite exact_sorted_repeat. cbn [repeat firstn In]. now left.
  - unfold dropped. rewrite exact_sorted_repeat. cbn [repeat skipn In]. now left.
Defined.

Lemma reasons_top_doubles_witness :
  exists d, analyze_big_small exact [item_one "Big trend"; item_one "small dip"] = Ok d
    /\ (1 <= List.length (Decision.reasons d))%nat.
Proof.
  destruct exact_tie_returns as [d [Ed Hd]].
  exists d. split; [exact Ed|].
  exact (proj2 (proj1 (proj2 (reasons_top_doubles exact _ _ d exact_tie_votes Ed)) Hd)).
Defined.

Lemma exact_big_votes :
  cast_votes exact [item_one "Big trend"]
  = Ok [ {| Vote.side := Big; Vote.weight := Fin (1 * (1 + ln (1 + 0)));
            Vote.name := Some "Alpha"; Vote.plan := Some "Big trend" |} ].
Proof.
  cbn [cast_votes].
  replace (vote (Str.or_empty (Item.plan (item_one "Big trend")))) with (Some Big)
    by reflexivity.
  now rewrite exact_weight_one.
Qed.

Lemma unanimous_doubles_witness :
  exists d, analyze_big_small exact [item_one "Big trend"] = Ok d
    /\ Decision.decision d = Some Big
    /\ Decision.confidence d = Fin 1.
Proof.
  apply (unanimous_doubles exact _ _ Big exact_big_votes).
  - repeat constructor.
  - apply fl_ltb_Fin. rewrite exact_unit_weight. lra.
  - eexists. reflexivity.
Defined.


End DoublesExamples.
